(** * gochain: the ledger state machine

    A shallow embedding of the ledger of the gochain node (the [Blockchain]
    type with its methods, and the mining handler) and the properties of its
    specification.

    Conventions.
    - Go's [int64] and [int] values are integers in [Z]; where the program
      does arithmetic that can leave the 64-bit range the wrap-around is
      written with [wrap64].
    - A Go slice is the list of its elements; a [nil] slice and an empty one
      are both the empty list.
    - A method with receiver [bc *Blockchain] is a function from the ledger
      to an [outcome]: the returned value with the ledger it leaves behind,
      a run-time panic (an index out of range) with the ledger as it was
      when the panic was raised, or the exhaustion of the fuel that bounds
      the two unbounded loops of the program.
    - What the program takes from outside is an argument: the clock
      ([time.Now]) is the argument [now], the network ([http.Get]) is the
      argument [http_Get], the order in which Go enumerates the map behind
      the peer set is the argument [keys].  The two functions of Go's
      library that the ledger calls, [json.Marshal] and [url.Parse], are the
      fields of the class [GoLib]. *)

From Stdlib Require Import ZArith String Ascii List Bool Lia DecimalString.
From stdpp Require Import base list gmap sets strings.

Local Open Scope string_scope.
Local Open Scope Z_scope.

(* ===================================================================== *)
(** ** 64-bit integers *)

Module Int64.

Definition min_int : Z := - 2 ^ 63.
Definition max_int : Z := 2 ^ 63 - 1.

(** The value an [int64] holds after an arithmetic result [z]. *)
Definition wrap64 (z : Z) : Z := (z + 2 ^ 63) mod 2 ^ 64 - 2 ^ 63.

Definition in_range (z : Z) : Prop := min_int <= z <= max_int.

End Int64.
Export Int64.

(* ===================================================================== *)
(** ** SHA-256 *)

(** Modelled from the spec: [ComputeHashSha256] is called by [ValidProof]
    and [computeHashForBlock] and is declared in another file of the
    repository.  The specification describes
    the hasher as "a standard cryptographic hash, e.g. SHA-256, rendered as
    lowercase hex"; this is SHA-256 (FIPS 180-4) on a byte string, printed
    as 64 lowercase hexadecimal digits. *)
Module Sha256.

Definition mask32 (x : Z) : Z := Z.land x 4294967295.
Definition add32 (x y : Z) : Z := mask32 (x + y).
Definition rotr (n x : Z) : Z :=
  Z.lor (Z.shiftr x n) (mask32 (Z.shiftl x (32 - n))).
Definition not32 (x : Z) : Z := Z.lxor x 4294967295.

Definition Ch (x y z : Z) : Z := Z.lxor (Z.land x y) (Z.land (not32 x) z).
Definition Maj (x y z : Z) : Z :=
  Z.lxor (Z.lxor (Z.land x y) (Z.land x z)) (Z.land y z).
Definition Sigma0 (x : Z) : Z :=
  Z.lxor (Z.lxor (rotr 2 x) (rotr 13 x)) (rotr 22 x).
Definition Sigma1 (x : Z) : Z :=
  Z.lxor (Z.lxor (rotr 6 x) (rotr 11 x)) (rotr 25 x).
Definition sigma0 (x : Z) : Z :=
  Z.lxor (Z.lxor (rotr 7 x) (rotr 18 x)) (Z.shiftr x 3).
Definition sigma1 (x : Z) : Z :=
  Z.lxor (Z.lxor (rotr 17 x) (rotr 19 x)) (Z.shiftr x 10).

(** The constants are fractional parts of roots of the first primes
    (FIPS 180-4, 4.2.2 and 5.3.3): 32 bits of the cube roots of the first
    sixty-four primes for [K], of the square roots of the first eight for
    [H0]. *)
Definition is_prime (n : nat) : bool :=
  forallb (fun d => negb (Nat.eqb (n mod d) 0)) (seq 2 (n - 2)).

Definition primes : list Z :=
  List.map Z.of_nat (List.filter is_prime (seq 2 310)).

(** The integer [k]-th root of [n], built bit by bit under [x]. *)
Fixpoint root_bits (k n x : Z) (bits : nat) : Z :=
  match bits with
  | O => x
  | S b =>
      let y := x + Z.shiftl 1 (Z.of_nat b) in
      root_bits k n (if y ^ k <=? n then y else x) b
  end.

Definition frac_root (k p : Z) : Z :=
  mask32 (root_bits k (Z.shiftl p (32 * k)) 0 40).

Definition K : list Z := Eval cbv in List.map (frac_root 3) primes.

(** The eight working words. *)
Record state : Type :=
  mkState { sa : Z; sb : Z; sc : Z; sd : Z; se : Z; sf : Z; sg : Z; sh : Z }.

Definition H0 : state :=
  Eval cbv in
    mkState (frac_root 2 2) (frac_root 2 3) (frac_root 2 5) (frac_root 2 7)
            (frac_root 2 11) (frac_root 2 13) (frac_root 2 17) (frac_root 2 19).

(** [n] bytes of [x], most significant first. *)
Definition be_bytes (n : nat) (x : Z) : list Z :=
  List.map (fun i => Z.land (Z.shiftr x (8 * Z.of_nat i)) 255) (rev (seq 0 n)).

(** Padding: the byte 0x80, zeros up to 56 modulo 64, the length in bits. *)
Definition pad (msg : list Z) : list Z :=
  let len := Z.of_nat (length msg) in
  let zeros := Z.to_nat ((55 - len) mod 64) in
  msg ++ [128] ++ repeat 0 zeros ++ be_bytes 8 (8 * len).

Fixpoint words (n : nat) (bs : list Z) : list Z :=
  match n, bs with
  | S n', b0 :: b1 :: b2 :: b3 :: rest =>
      Z.lor (Z.shiftl b0 24) (Z.lor (Z.shiftl b1 16) (Z.lor (Z.shiftl b2 8) b3))
        :: words n' rest
  | _, _ => []
  end.

(** The message schedule, newest word first: [w] is W[t-1], W[t-2], ... *)
Fixpoint extend (n : nat) (w : list Z) : list Z :=
  match n with
  | O => w
  | S n' =>
      let wt := add32 (add32 (sigma1 (nth 1 w 0)) (nth 6 w 0))
                      (add32 (sigma0 (nth 14 w 0)) (nth 15 w 0)) in
      extend n' (wt :: w)
  end.

Definition schedule (block : list Z) : list Z :=
  rev (extend 48 (rev (words 16 block))).

Definition round (s : state) (kw : Z * Z) : state :=
  let '(k, w) := kw in
  let t1 := add32 (add32 (add32 (sh s) (Sigma1 (se s))) (Ch (se s) (sf s) (sg s)))
                  (add32 k w) in
  let t2 := add32 (Sigma0 (sa s)) (Maj (sa s) (sb s) (sc s)) in
  mkState (add32 t1 t2) (sa s) (sb s) (sc s) (add32 (sd s) t1) (se s) (sf s) (sg s).

Definition compress (h : state) (block : list Z) : state :=
  let s := fold_left round (combine K (schedule block)) h in
  mkState (add32 (sa h) (sa s)) (add32 (sb h) (sb s))
          (add32 (sc h) (sc s)) (add32 (sd h) (sd s))
          (add32 (se h) (se s)) (add32 (sf h) (sf s))
          (add32 (sg h) (sg s)) (add32 (sh h) (sh s)).

Fixpoint blocks (n : nat) (bs : list Z) : list (list Z) :=
  match n with
  | O => []
  | S n' => firstn 64 bs :: blocks n' (skipn 64 bs)
  end.

Definition digest (msg : list Z) : state :=
  let p := pad msg in
  fold_left compress (blocks (length p / 64) p) H0.

Definition hexdigit (x : Z) : ascii :=
  ascii_of_N (Z.to_N (if x <? 10 then 48 + x else 87 + x)).

Definition nibble (w i : Z) : ascii :=
  hexdigit (Z.land (Z.shiftr w (4 * i)) 15).

Definition hex8 (w : Z) (tl : string) : string :=
  String (nibble w 7) (String (nibble w 6) (String (nibble w 5)
  (String (nibble w 4) (String (nibble w 3) (String (nibble w 2)
  (String (nibble w 1) (String (nibble w 0) tl))))))).

Definition hex (s : state) : string :=
  hex8 (sa s) (hex8 (sb s) (hex8 (sc s) (hex8 (sd s)
  (hex8 (se s) (hex8 (sf s) (hex8 (sg s) (hex8 (sh s) EmptyString))))))).

Definition bytes_of_string (s : string) : list Z :=
  List.map (fun c => Z.of_N (N_of_ascii c)) (list_ascii_of_string s).

Definition sum256 (s : string) : string := hex (digest (bytes_of_string s)).

End Sha256.

(** [ComputeHashSha256(bytes []byte) string]; the bytes are those of a Go
    string, which the model keeps as a [string]. *)
Definition ComputeHashSha256 (bytes : string) : string := Sha256.sum256 bytes.

(** What the verb [%d] of [fmt.Sprintf] prints for an integer. *)
Definition decimal (z : Z) : string := NilZero.string_of_int (Z.to_int z).

(* ===================================================================== *)
(** ** The data model *)

(** Modelled from the spec: the field [Fee].  The declaration of
    [Transaction] lists [Sender], [Recipient] and [Amount] only, while the
    mining handler reads [tx.Fee] and builds [Transaction{..., Fee: 0}]; the
    specification gives a transaction the fields "sender, recipient,
    amount: integer, fee: integer" and calls amount and fee non-negative.
    The handler stores [tx.Fee] in [Amount], so the field has the type of
    [Amount], an [int64]; the fees that the theorems below are about (5 and
    0) are non-negative, and no theorem rests on a negative one. *)
Record Transaction : Type := mkTransaction {
  Sender : string;
  Recipient : string;
  Amount : Z;
  Fee : Z
}.

Record Block : Type := mkBlock {
  Index : Z;
  Timestamp : Z;
  Transactions : list Transaction;
  Proof : Z;
  PreviousHash : string
}.

(** Modelled from the spec: [StringSet], the type of the peer set, with
    [NewStringSet], [Add] and [Keys], is declared in another file of the
    repository.  The specification: "a set of unique network addresses,
    insertion order irrelevant, deduplicated"; registering "inserts into
    the set; returns true if newly inserted, false if ... already
    present". *)
Module StringSet.

Definition t : Type := gset string.

Definition NewStringSet : t := ∅.

(** [set.Add(str)]: the answer and the set afterwards. *)
Definition Add (set : t) (str : string) : bool * t :=
  (bool_decide (str ∉ set), {[ str ]} ∪ set).

(** [set.Keys()] is some enumeration of the members, each once; the order
    is not determined. *)
Definition Keys (set : t) (keys : list string) : Prop :=
  keys ≡ₚ elements set.

End StringSet.

Record Blockchain : Type := mkBlockchain {
  chain : list Block;
  transactions : list Transaction;
  nodes : StringSet.t
}.

Record blockchainInfo : Type := mkInfo {
  Length : Z;
  Chain : list Block
}.

(** [net/url.URL], of which the program reads [Host] only. *)
Record URL : Type := mkURL { Host : string }.

(** The two library functions the ledger calls.  [json.Marshal] cannot fail
    on a [Block] (integers, strings and slices of such), so the two
    [log.Fatalf] branches of [computeHashForBlock] are dead and the encoder
    is a total function; [url.Parse] answers a URL or an error ([None]). *)
Class GoLib : Type := {
  json_Marshal : Block -> string;
  url_Parse : string -> option URL
}.

(** What [http.Get] answers: an error ([None]) or a response, of which the
    program reads the status code and the body, decoded as a
    [blockchainInfo] ([None] when [Decode] fails). *)
Record Response : Type := mkResponse {
  StatusCode : Z;
  Body : option blockchainInfo
}.

Definition StatusOK : Z := 200.

(* ===================================================================== *)
(** ** Methods as state transformers *)

Inductive outcome (A : Type) : Type :=
| Done (a : A) (bc : Blockchain)
| Panicked (bc : Blockchain)
| OutOfFuel.
Arguments Done {A} a bc.
Arguments Panicked {A} bc.
Arguments OutOfFuel {A}.

Definition M (A : Type) : Type := Blockchain -> outcome A.

Definition ret {A} (a : A) : M A := fun bc => Done a bc.

Definition bind {A B} (m : M A) (f : A -> M B) : M B :=
  fun bc =>
    match m bc with
    | Done a bc' => f a bc'
    | Panicked bc' => Panicked bc'
    | OutOfFuel => OutOfFuel
    end.

Definition panic {A} : M A := fun bc => Panicked bc.

Definition gets {A} (f : Blockchain -> A) : M A := fun bc => Done (f bc) bc.

Definition modify (f : Blockchain -> Blockchain) : M unit :=
  fun bc => Done tt (f bc).

Declare Scope go_scope.
Delimit Scope go_scope with go.
Notation "x <- m ;; k" := (bind m (fun x => k))
  (at level 100, m at next level, right associativity) : go_scope.
Notation "m ;;; k" := (bind m (fun _ => k))
  (at level 100, right associativity) : go_scope.

(** The ledger an outcome leaves behind, when there is one. *)
Definition ledger_of {A} (o : outcome A) : option Blockchain :=
  match o with
  | Done _ bc => Some bc
  | Panicked bc => Some bc
  | OutOfFuel => None
  end.

Definition set_chain (c : list Block) (bc : Blockchain) : Blockchain :=
  mkBlockchain c (transactions bc) (nodes bc).
Definition set_transactions (t : list Transaction) (bc : Blockchain) : Blockchain :=
  mkBlockchain (chain bc) t (nodes bc).
Definition set_nodes (n : StringSet.t) (bc : Blockchain) : Blockchain :=
  mkBlockchain (chain bc) (transactions bc) n.

(** [s[len(s)-1]]: the last element, or a panic on an empty slice. *)
Definition index_last {A} (s : list A) : M A :=
  match last s with
  | Some x => ret x
  | None => panic
  end.

(* ===================================================================== *)
(** ** The ledger *)

Section Ledger.

Context `{lib : GoLib}.

(** [binary.Write] of a byte slice into a buffer copies the bytes. *)
Definition computeHashForBlock (block : Block) : string :=
  ComputeHashSha256 (json_Marshal block).

Definition NewBlock (proof : Z) (previousHash : string) (now : Z) : M Block :=
  (prevHash <-
     (if String.eqb previousHash ""
      then (prevBlock <- (c <- gets chain ;; index_last c) ;;
            ret (computeHashForBlock prevBlock))
      else ret previousHash) ;;
   c <- gets chain ;;
   t <- gets transactions ;;
   let newBlock :=
     {| Index := wrap64 (Z.of_nat (length c) + 1);
        Timestamp := now;
        Transactions := t;
        Proof := proof;
        PreviousHash := prevHash |} in
   modify (set_transactions []) ;;;
   modify (set_chain (c ++ [newBlock])) ;;;
   ret newBlock)%go.

Definition LastBlock : M Block :=
  (c <- gets chain ;; index_last c)%go.

Definition NewTransaction (tx : Transaction) : M Z :=
  (t <- gets transactions ;;
   modify (set_transactions (t ++ [tx])) ;;;
   b <- LastBlock ;;
   ret (wrap64 (Index b + 1)))%go.

(** The digest has 64 characters ([ComputeHashSha256_length] below), so the
    slice [guessHash[:4]] is within bounds and is [substring 0 4]. *)
Definition ValidProof (lastProof proof : Z) : bool :=
  let guess := decimal lastProof ++ decimal proof in
  let guessHash := ComputeHashSha256 guess in
  String.eqb (substring 0 4 guessHash) "0000".

(** The loop of [ProofOfWork]; [None] when the fuel runs out. *)
Fixpoint ProofOfWork_loop (fuel : nat) (lastProof proof : Z) : option Z :=
  match fuel with
  | O => None
  | S fuel' =>
      if negb (ValidProof lastProof proof)
      then ProofOfWork_loop fuel' lastProof (wrap64 (proof + 1))
      else Some proof
  end.

Definition ProofOfWork (fuel : nat) (lastProof : Z) : option Z :=
  ProofOfWork_loop fuel lastProof 0.

(** The loop of [ValidChain] from [currentIndex] on: [rest] is what is
    left of the chain at that index. *)
Fixpoint ValidChain_loop (lastBlock : Block) (rest : list Block) : bool :=
  match rest with
  | [] => true
  | block :: rest' =>
      if negb (String.eqb (PreviousHash block) (computeHashForBlock lastBlock))
      then false
      else if negb (ValidProof (Proof lastBlock) (Proof block))
      then false
      else ValidChain_loop block rest'
  end.

(** [ValidChain]; [None] is the panic of the unconditional read of element
    0 when the chain is empty. *)
Definition ValidChain (chain : list Block) : option bool :=
  match chain with
  | [] => None
  | lastBlock :: rest => Some (ValidChain_loop lastBlock rest)
  end.

Definition RegisterNode (address : string) : M bool :=
  match url_Parse address with
  | None => ret false
  | Some u =>
      (n <- gets nodes ;;
       let '(added, n') := StringSet.Add n (Host u) in
       modify (set_nodes n') ;;;
       ret added)%go
  end.

(** [findExternalChain]: the information and the error; [None] is a
    non-nil error.  A response whose status is not 200 falls through to
    the last [return], with the zero [blockchainInfo] and the nil error of
    [http.Get]. *)
Definition findExternalChain (http_Get : string -> option Response)
    (address : string) : option blockchainInfo :=
  match http_Get ("http://" ++ address ++ "/chain") with
  | Some response =>
      if StatusCode response =? StatusOK
      then Body response
      else Some (mkInfo 0 [])
  | None => None
  end.

(** The body of the loop of [ResolveConflicts] on one peer, on the two
    variables the loop updates; [None] is the panic of [ValidChain]. *)
Definition ResolveConflicts_body (http_Get : string -> option Response)
    (node : string) (st : Z * list Block) : option (Z * list Block) :=
  let '(curmaxLength, tempChain) := st in
  match findExternalChain http_Get node with
  | None => Some st
  | Some anotherchain =>
      match ValidChain (Chain anotherchain) with
      | None => None
      | Some false => Some st
      | Some true =>
          if Length anotherchain >? curmaxLength
          then Some (Length anotherchain, Chain anotherchain)
          else Some st
      end
  end.

Fixpoint ResolveConflicts_loop (http_Get : string -> option Response)
    (keys : list string) (st : Z * list Block) : option (Z * list Block) :=
  match keys with
  | [] => Some st
  | node :: keys' =>
      match ResolveConflicts_body http_Get node st with
      | None => None
      | Some st' => ResolveConflicts_loop http_Get keys' st'
      end
  end.

Definition ResolveConflicts (http_Get : string -> option Response)
    (keys : list string) : M bool :=
  (c <- gets chain ;;
   let curmaxLength := Z.of_nat (length c) in
   let authority := true in
   let tempChain := c in
   match ResolveConflicts_loop http_Get keys (curmaxLength, tempChain) with
   | None => panic
   | Some (_, tempChain) =>
       modify (set_chain tempChain) ;;;
       ret (negb authority)
   end)%go.

Definition emptyBlockchain : Blockchain :=
  mkBlockchain [] [] StringSet.NewStringSet.

(** [NewBlockchain]: the ledger it returns, with the genesis block. *)
Definition NewBlockchain (now : Z) : outcome Block :=
  NewBlock 100 "1" now emptyBlockchain.

End Ledger.

(* ===================================================================== *)
(** ** The mining handler *)

Definition out_of_fuel {A} : M A := fun _ => OutOfFuel.

Section Handler.

Context `{lib : GoLib}.

(** The [for] loop of [Mine].  The handler runs alone: nothing else
    touches the ledger between two of its statements. *)
Fixpoint Mine_loop (fuel fuel_left : nat) : M Z :=
  match fuel_left with
  | O => out_of_fuel
  | S fuel_left' =>
      (lastBlock <- LastBlock ;;
       let lastProof := Proof lastBlock in
       match ProofOfWork fuel lastProof with
       | None => out_of_fuel
       | Some proof =>
           if proof =? -1 then Mine_loop fuel fuel_left'
           else
             (b <- LastBlock ;;
              if negb (ValidProof (Proof b) proof)
              then Mine_loop fuel fuel_left'
              else ret proof)
       end)%go
  end.

(** The [range] loop of [Mine] over the transactions it captured. *)
Fixpoint Mine_fees (nodeId : string) (transactions : list Transaction) : M unit :=
  match transactions with
  | [] => ret tt
  | tx :: rest =>
      (NewTransaction
         {| Sender := Sender tx; Recipient := nodeId;
            Amount := Fee tx; Fee := 0 |} ;;;
       Mine_fees nodeId rest)%go
  end.

(** [handler.Mine]; the value is the block of the response. *)
Definition Mine (nodeId : string) (http_Get : string -> option Response)
    (keys : list string) (now : Z) (fuel : nat) : M Block :=
  (ResolveConflicts http_Get keys ;;;
   transactions <- gets transactions ;;
   proof <- Mine_loop fuel fuel ;;
   Mine_fees nodeId transactions ;;;
   let newTX := {| Sender := "0"; Recipient := nodeId; Amount := 1; Fee := 0 |} in
   NewTransaction newTX ;;;
   block <- NewBlock proof "" now ;;
   ret block)%go.

End Handler.

(* ===================================================================== *)
(** ** Runs of the ledger *)

Inductive op : Type :=
| CallNewBlock (proof : Z) (previousHash : string) (now : Z)
| CallNewTransaction (tx : Transaction)
| CallRegisterNode (address : string)
| CallResolveConflicts (http_Get : string -> option Response) (keys : list string)
| CallMine (nodeId : string) (http_Get : string -> option Response)
           (keys : list string) (now : Z) (fuel : nat).

Section Runs.

Context `{lib : GoLib}.

(** The ledger after a call, whether it returned or panicked. *)
Definition after (o : op) (bc : Blockchain) : option Blockchain :=
  match o with
  | CallNewBlock proof previousHash now =>
      ledger_of (NewBlock proof previousHash now bc)
  | CallNewTransaction tx => ledger_of (NewTransaction tx bc)
  | CallRegisterNode address => ledger_of (RegisterNode address bc)
  | CallResolveConflicts http_Get keys =>
      ledger_of (ResolveConflicts http_Get keys bc)
  | CallMine nodeId http_Get keys now fuel =>
      ledger_of (Mine nodeId http_Get keys now fuel bc)
  end.

(** The peers a call polls are the keys of the peer set. *)
Definition polls_the_peers (o : op) (bc : Blockchain) : Prop :=
  match o with
  | CallResolveConflicts _ keys | CallMine _ _ keys _ _ =>
      StringSet.Keys (nodes bc) keys
  | _ => True
  end.

(** The ledgers that runs of calls satisfying [P] lead to. *)
Inductive reachable_by (P : op -> Blockchain -> Prop) : Blockchain -> Prop :=
| reachable_new now genesis bc :
    NewBlockchain now = Done genesis bc -> reachable_by P bc
| reachable_call bc o bc' :
    reachable_by P bc -> polls_the_peers o bc -> P o bc ->
    after o bc = Some bc' -> reachable_by P bc'.

Definition reachable : Blockchain -> Prop := reachable_by (fun _ _ => True).

(** Indices run 1, 2, 3, ... along the chain. *)
Definition sequential (c : list Block) : Prop :=
  forall (i : nat) (b : Block), c !! i = Some b -> Index b = wrap64 (Z.of_nat i + 1).

(** Every peer chain that the call could adopt (it passes the validator
    and is reported longer than the local chain) has sequential indices. *)
Definition adopts_sequential (o : op) (bc : Blockchain) : Prop :=
  match o with
  | CallResolveConflicts http_Get keys | CallMine _ http_Get keys _ _ =>
      forall node info,
        node ∈ keys ->
        findExternalChain http_Get node = Some info ->
        ValidChain (Chain info) = Some true ->
        Length info > Z.of_nat (length (chain bc)) ->
        sequential (Chain info)
  | _ => True
  end.

(** What the specification asks of two neighbours of a chain. *)
Definition pair_ok (prev cur : Block) : bool :=
  String.eqb (PreviousHash cur) (computeHashForBlock prev)
  && ValidProof (Proof prev) (Proof cur).

(** The chain validator in the specification's words: every adjacent pair
    of blocks is linked by hash and by proof. *)
Definition isValid_spec (c : list Block) : Prop :=
  forall (i : nat) (prev cur : Block),
    c !! i = Some prev -> c !! S i = Some cur -> pair_ok prev cur = true.

(** How a call can change the chain: one block is appended, numbered by
    the length it brings the chain to, ... *)
Definition appended (c c' : list Block) : Prop :=
  c' = c \/
  exists newBlock : Block,
    c' = (c ++ [newBlock])%list /\
    Index newBlock = wrap64 (Z.of_nat (length c) + 1).

(** ... or the chain of a peer is installed, valid and reported longer
    than the local one. *)
Definition resolved (http_Get : string -> option Response)
    (keys : list string) (c c' : list Block) : Prop :=
  c' = c \/
  exists node anotherchain,
    node ∈ keys /\
    findExternalChain http_Get node = Some anotherchain /\
    ValidChain (Chain anotherchain) = Some true /\
    Length anotherchain > Z.of_nat (length c) /\
    Chain anotherchain = c'.

End Runs.

(* ===================================================================== *)
(** ** A concrete library and concrete ledgers

    To run the model on concrete ledgers the two library functions need an
    implementation.  The two below follow Go's on the inputs used in this
    file: the JSON encoding of a block whose strings need no escaping and
    whose transaction slice is not [nil] (with the field [Fee] under the key
    "fee"), and the host of an address of the form [scheme://host/path]
    without control characters (which [url.Parse] refuses). *)

Module Sample.

Definition quote : string := String (ascii_of_N 34) EmptyString.

Definition json_key (k : string) : string := quote ++ k ++ quote ++ ":".
Definition json_str (s : string) : string := quote ++ s ++ quote.

Definition json_Transaction (tx : Transaction) : string :=
  "{" ++ json_key "sender" ++ json_str (Sender tx) ++ ","
      ++ json_key "recipient" ++ json_str (Recipient tx) ++ ","
      ++ json_key "amount" ++ decimal (Amount tx) ++ ","
      ++ json_key "fee" ++ decimal (Fee tx) ++ "}".

Definition json_Block (b : Block) : string :=
  "{" ++ json_key "index" ++ decimal (Index b) ++ ","
      ++ json_key "timestamp" ++ decimal (Timestamp b) ++ ","
      ++ json_key "transactions"
      ++ "[" ++ String.concat "," (List.map json_Transaction (Transactions b)) ++ "],"
      ++ json_key "proof" ++ decimal (Proof b) ++ ","
      ++ json_key "previous_hash" ++ json_str (PreviousHash b) ++ "}".

Definition has_control (s : string) : bool :=
  existsb (fun c => (N_of_ascii c <? 32)%N || (N_of_ascii c =? 127)%N)
          (list_ascii_of_string s).

Definition host_of (s : string) : string :=
  match index 0 "://" s with
  | Some n =>
      let rest := substring (n + 3) (String.length s - (n + 3)) s in
      match index 0 "/" rest with
      | Some m => substring 0 m rest
      | None => rest
      end
  | None => ""
  end.

Definition parse_url (s : string) : option URL :=
  if has_control s then None else Some (mkURL (host_of s)).

Definition lib : GoLib :=
  {| json_Marshal := json_Block; url_Parse := parse_url |}.

(** The genesis block and ledger at time 0. *)
Definition genesis : Block := mkBlock 1 0 [] 100 "1".
Definition ledger0 : Blockchain := mkBlockchain [genesis] [] ∅.

(** A peer one block ahead: its second block is linked to the genesis
    block and carries the proof of work for 100. *)
Definition block2 : Block :=
  mkBlock 2 1 [mkTransaction "0" "peer" 1 0] 35293
          (computeHashForBlock (lib := lib) genesis).
Definition longer_chain : list Block := [genesis; block2].

Definition peer : string := "peer:5000".
Definition ledger1 : Blockchain := mkBlockchain [genesis] [] {[ peer ]}.

(** The peer answers with its chain of two blocks. *)
Definition net_ahead (url : string) : option Response :=
  if String.eqb url "http://peer:5000/chain"
  then Some (mkResponse 200 (Some (mkInfo 2 longer_chain)))
  else None.

(** The peer answers "not found". *)
Definition net_404 (url : string) : option Response :=
  if String.eqb url "http://peer:5000/chain"
  then Some (mkResponse 404 None)
  else None.

(** The peer answers with an empty chain. *)
Definition net_empty (url : string) : option Response :=
  if String.eqb url "http://peer:5000/chain"
  then Some (mkResponse 200 (Some (mkInfo 0 [])))
  else None.

(** The peer reports a length of 2 and sends one block, numbered 7. *)
Definition block7 : Block := mkBlock 7 0 [] 100 "1".
Definition net_seven (url : string) : option Response :=
  if String.eqb url "http://peer:5000/chain"
  then Some (mkResponse 200 (Some (mkInfo 2 [block7])))
  else None.

(** Nobody answers. *)
Definition net_down (url : string) : option Response := None.

(** A ledger with one pending transaction of fee 5, whose last block has
    a proof for which the search ends at 2. *)
Definition paying : Transaction := mkTransaction "alice" "bob" 10 5.
Definition tip : Block := mkBlock 2 1 [] 30916 "1".
Definition ledger2 : Blockchain := mkBlockchain [genesis; tip] [paying] ∅.

End Sample.

(* ===================================================================== *)
(** ** The handlers of the HTTP interface *)

(** What a handler reads of a request: the method, and what decoding the
    body leaves in the variable it is decoded into, with whether the
    decoder returned an error. *)
Record Request (A : Type) : Type := mkRequest {
  Method : string;
  Decoded : A;
  DecodeFailed : bool
}.
Arguments mkRequest {A} Method Decoded DecodeFailed.
Arguments Method {A} r.
Arguments Decoded {A} r.
Arguments DecodeFailed {A} r.

Definition MethodGet : string := "GET".
Definition MethodPost : string := "POST".
Definition StatusCreated : Z := 201.
Definition StatusMethodNotAllowed : Z := 405.
Definition StatusInternalServerError : Z := 500.

(** The values the handlers answer with: [nil], or one of their maps. *)
Inductive payload : Type :=
| NoValue
| Message (message : string)
| Forged (message : string) (block : Block)
| ChainView (chain : list Block) (length : Z)
| NodesView (message : string) (nodes : list string)
| ResolvedView (message : string) (chain : list Block)
| ErrorText (text : string).

Record response : Type := mkresponse {
  value : payload;
  statusCode : Z;
  err : option string
}.

(** What [buildResponse] writes: the status, and the value or, when there
    is an error, the text of the error in its place. *)
Definition buildResponse (h : M response) : M (Z * payload) :=
  (resp <- h ;;
   let msg := match err resp with
              | Some e => ErrorText e
              | None => value resp
              end in
   ret (statusCode resp, msg))%go.

Definition methodNotAllowed (method : string) : response :=
  mkresponse NoValue StatusMethodNotAllowed
             (Some ("method " ++ method ++ " not allowd")).

Module handler.
Section WithLib.

Context `{lib : GoLib}.

Definition AddTransaction (r : Request Transaction) : M response :=
  if negb (String.eqb (Method r) MethodPost)
  then ret (methodNotAllowed (Method r))
  else
    (let tx := Decoded r in
     index <- NewTransaction tx ;;
     let resp := Message ("Transaction will be added to Block " ++ decimal index) in
     if DecodeFailed r
     then ret (mkresponse resp StatusInternalServerError
                 (Some "fail to add transaction to the blockchain"))
     else ret (mkresponse resp StatusCreated None))%go.

(** [handler.Mine]: [Mine] with the response around the block. *)
Definition Mine (nodeId : string) (http_Get : string -> option Response)
    (keys : list string) (now : Z) (fuel : nat) : M response :=
  (block <- Mine nodeId http_Get keys now fuel ;;
   ret (mkresponse (Forged "New Block Forged" block) StatusOK None))%go.

(** The [range] loop of [handler.RegisterNode]. *)
Fixpoint RegisterNode_each (addresses : list string) : M unit :=
  match addresses with
  | [] => ret tt
  | node :: rest => (RegisterNode node ;;; RegisterNode_each rest)%go
  end.

(** [handler.RegisterNode]; the request carries [body["nodes"]], and [keys]
    is what [Keys()] enumerates afterwards. *)
Definition RegisterNode (r : Request (list string)) (keys : list string)
    : M response :=
  if negb (String.eqb (Method r) MethodPost)
  then ret (methodNotAllowed (Method r))
  else
    (RegisterNode_each (Decoded r) ;;;
     let resp := NodesView "New nodes have been added" keys in
     if DecodeFailed r
     then ret (mkresponse resp StatusInternalServerError
                 (Some "fail to register nodes"))
     else ret (mkresponse resp StatusCreated None))%go.

Definition ResolveConflicts {A} (r : Request A)
    (http_Get : string -> option Response) (keys : list string) : M response :=
  if negb (String.eqb (Method r) MethodGet)
  then ret (methodNotAllowed (Method r))
  else
    (replaced <- ResolveConflicts http_Get keys ;;
     let msg := if replaced : bool
                then "Our chain was replaced"
                else "Our chain is authoritative" in
     c <- gets chain ;;
     ret (mkresponse (ResolvedView msg c) StatusOK None))%go.

(** [handler.Blockchain]. *)
Definition Blockchain {A} (r : Request A) : M response :=
  if negb (String.eqb (Method r) MethodGet)
  then ret (methodNotAllowed (Method r))
  else
    (c <- gets chain ;;
     ret (mkresponse (ChainView c (Z.of_nat (length c))) StatusOK None))%go.

End WithLib.
End handler.


(** Calls other than a bare [NewBlock], which takes any number for a
    proof. *)
Definition through_the_handlers (o : op) (bc : Blockchain) : Prop :=
  match o with
  | CallNewBlock _ _ _ => False
  | _ => True
  end.

(** The amounts of a list of transactions, and their fees, added up. *)
Definition total_amount (txs : list Transaction) : Z :=
  fold_right (fun tx acc => Amount tx + acc) 0 txs.
Definition total_fee (txs : list Transaction) : Z :=
  fold_right (fun tx acc => Fee tx + acc) 0 txs.

(** The transaction [Mine] adds for a pending one. *)
Definition fee_credit (nodeId : string) (tx : Transaction) : Transaction :=
  {| Sender := Sender tx; Recipient := nodeId; Amount := Fee tx; Fee := 0 |}.

(* ===================================================================== *)
(** * Properties *)

(** The hash and the 64-bit arithmetic are never unfolded by simplification. *)
Arguments ComputeHashSha256 : simpl never.
Arguments computeHashForBlock : simpl never.
Arguments ValidProof : simpl never.
Arguments wrap64 : simpl never.
Arguments decimal : simpl never.

(** ** Integers and strings *)

Lemma wrap64_in_range (z : Z) : in_range z -> wrap64 z = z.
Proof.
  unfold in_range, min_int, max_int, wrap64. intros Hz.
  rewrite Z.mod_small; lia.
Qed.

Lemma wrap64_succ (z : Z) : 0 <= z < max_int -> wrap64 (z + 1) = z + 1.
Proof.
  intros Hz. apply wrap64_in_range.
  unfold in_range, min_int, max_int in *. lia.
Qed.

(** The digest always has 64 characters, so the slice [guessHash[:4]] of
    [ValidProof] is always within bounds. *)
Lemma ComputeHashSha256_length (bytes : string) :
  String.length (ComputeHashSha256 bytes) = 64%nat.
Proof.
  unfold ComputeHashSha256, Sha256.sum256.
  destruct (Sha256.digest _). reflexivity.
Qed.

(** The standard test vectors for the empty message, for "abc" and for a
    message of 56 bytes, which takes two blocks. *)
Example sum256_empty :
  ComputeHashSha256 ""
  = "e3b0c44298fc1c149afbf4c8996fb92427ae41e4649b934ca495991b7852b855".
Proof. vm_compute. reflexivity. Qed.

Example sum256_abc :
  ComputeHashSha256 "abc"
  = "ba7816bf8f01cfea414140de5dae2223b00361a396177a9cb410ff61f20015ad".
Proof. vm_compute. reflexivity. Qed.

Example sum256_two_blocks :
  ComputeHashSha256 "abcdbcdecdefdefgefghfghighijhijkijkljklmklmnlmnomnopnopq"
  = "248d6a61d20638b8e5c026930c3e6039a33ce45964ff2167f6ecedd419db06c1".
Proof. vm_compute. reflexivity. Qed.

Lemma substring_4_zeros (s : string) :
  String.eqb (substring 0 4 s) "0000" = true <->
  (forall i : nat, (i < 4)%nat -> String.get i s = Some "0"%char).
Proof.
  rewrite String.eqb_eq. split.
  - intros Hs i Hi.
    destruct s as [|c0 [|c1 [|c2 [|c3 s]]]]; simpl in Hs; try discriminate.
    injection Hs as -> -> -> -> _.
    destruct i as [|[|[|[|i]]]]; simpl; try reflexivity; lia.
  - intros Hs.
    pose proof (Hs 0%nat ltac:(lia)) as H0.
    pose proof (Hs 1%nat ltac:(lia)) as H1.
    pose proof (Hs 2%nat ltac:(lia)) as H2.
    pose proof (Hs 3%nat ltac:(lia)) as H3.
    destruct s as [|c0 [|c1 [|c2 [|c3 s]]]]; simpl in *; try discriminate.
    injection H0 as ->. injection H1 as ->. injection H2 as ->. injection H3 as ->.
    now destruct s.
Qed.

Section Properties.

Context `{lib : GoLib}.

(** ** Proof of work *)

Lemma ValidProof_zeros (lastProof proof : Z) :
  ValidProof lastProof proof = true <->
  (forall i : nat, (i < 4)%nat ->
     String.get i (ComputeHashSha256 (decimal lastProof ++ decimal proof))
     = Some "0"%char).
Proof. unfold ValidProof. apply substring_4_zeros. Qed.

(** A search started at [start] with no solution before [q] ends at [q]. *)
Lemma ProofOfWork_loop_finds (lastProof q : Z) :
  ValidProof lastProof q = true ->
  forall (fuel : nat) (start : Z),
    0 <= start <= q -> q <= max_int ->
    (forall r, start <= r < q -> ValidProof lastProof r = false) ->
    (Z.to_nat (q - start) < fuel)%nat ->
    ProofOfWork_loop fuel lastProof start = Some q.
Proof.
  intros Hq fuel. induction fuel as [|fuel IH]; intros start Hs Hmax Hnone Hfuel.
  - lia.
  - cbn [ProofOfWork_loop].
    destruct (ValidProof lastProof start) eqn:Hv; cbn [negb].
    + destruct (Z.eq_dec start q) as [->|Hne]; [reflexivity|].
      rewrite Hnone in Hv by lia. discriminate.
    + assert (start <> q) by (intros ->; congruence).
      rewrite wrap64_succ by lia.
      apply IH; try lia. intros r Hr. apply Hnone. lia.
Qed.

(** More fuel does not change an answer. *)
Lemma ProofOfWork_loop_mono (lastProof : Z) (fuel fuel' : nat) :
  (fuel <= fuel')%nat ->
  forall start r,
    ProofOfWork_loop fuel lastProof start = Some r ->
    ProofOfWork_loop fuel' lastProof start = Some r.
Proof.
  revert fuel'. induction fuel as [|fuel IH]; intros fuel' Hle start r Hr.
  - discriminate.
  - destruct fuel' as [|fuel']; [lia|]. cbn [ProofOfWork_loop] in *.
    destruct (negb (ValidProof lastProof start)); [|exact Hr].
    apply IH; [lia|exact Hr].
Qed.

(** Below a solution there is a least solution. *)
Lemma least_solution (f : Z -> bool) (n : nat) :
  (exists q, 0 <= q < Z.of_nat n /\ f q = true /\
             forall r, 0 <= r < q -> f r = false)
  \/ (forall r, 0 <= r < Z.of_nat n -> f r = false).
Proof.
  induction n as [|n [IH|IH]].
  - right. lia.
  - left. destruct IH as (q & Hq & Hf & Hl). exists q. split; [lia|]. auto.
  - destruct (f (Z.of_nat n)) eqn:Hn.
    + left. exists (Z.of_nat n). split; [lia|]. split; [exact Hn|exact IH].
    + right. intros r Hr.
      destruct (Z.eq_dec r (Z.of_nat n)) as [->|Hne]; [exact Hn|].
      apply IH. lia.
Qed.

Lemma ProofOfWork_total (lastProof p : Z) :
  0 <= p <= max_int -> ValidProof lastProof p = true ->
  exists q, 0 <= q <= p /\ ValidProof lastProof q = true /\
            (forall r, 0 <= r < q -> ValidProof lastProof r = false) /\
            (forall fuel, (Z.to_nat q < fuel)%nat ->
                          ProofOfWork fuel lastProof = Some q).
Proof.
  intros Hp Hv.
  destruct (least_solution (ValidProof lastProof) (S (Z.to_nat p)))
    as [(q & Hq & Hf & Hl)|Hnone].
  - exists q. split; [lia|]. split; [exact Hf|]. split; [exact Hl|].
    intros fuel Hfuel. unfold ProofOfWork.
    apply ProofOfWork_loop_finds; try assumption; lia.
  - rewrite Hnone in Hv by lia. discriminate.
Qed.

(** ** The methods on a ledger whose chain is not empty *)

Lemma LastBlock_returns (bc : Blockchain) (b : Block) :
  last (chain bc) = Some b -> LastBlock bc = Done b bc.
Proof.
  intros Hb. unfold LastBlock, bind, gets, index_last. rewrite Hb. reflexivity.
Qed.

Lemma LastBlock_panics (bc : Blockchain) :
  chain bc = [] -> LastBlock bc = Panicked bc.
Proof.
  intros Hb. unfold LastBlock, bind, gets, index_last. rewrite Hb. reflexivity.
Qed.

Lemma NewTransaction_returns (tx : Transaction) (bc : Blockchain) (b : Block) :
  last (chain bc) = Some b ->
  NewTransaction tx bc =
  Done (wrap64 (Index b + 1))
       (mkBlockchain (chain bc) (transactions bc ++ [tx]) (nodes bc)).
Proof.
  intros Hb. unfold NewTransaction, bind, gets, modify, set_transactions.
  rewrite LastBlock_returns with (b := b) by exact Hb. reflexivity.
Qed.

Lemma NewBlock_linked (proof now : Z) (bc : Blockchain) (prev : Block) :
  last (chain bc) = Some prev ->
  NewBlock proof "" now bc =
  let newBlock :=
    mkBlock (wrap64 (Z.of_nat (length (chain bc)) + 1)) now (transactions bc)
            proof (computeHashForBlock prev) in
  Done newBlock (mkBlockchain (chain bc ++ [newBlock]) [] (nodes bc)).
Proof.
  intros Hb. unfold NewBlock, bind, gets, modify, ret, index_last,
    set_chain, set_transactions.
  cbn [String.eqb chain transactions nodes]. rewrite Hb. reflexivity.
Qed.

Lemma NewBlock_given (proof now : Z) (previousHash : string) (bc : Blockchain) :
  previousHash <> "" ->
  NewBlock proof previousHash now bc =
  let newBlock :=
    mkBlock (wrap64 (Z.of_nat (length (chain bc)) + 1)) now (transactions bc)
            proof previousHash in
  Done newBlock (mkBlockchain (chain bc ++ [newBlock]) [] (nodes bc)).
Proof.
  intros Hne. unfold NewBlock, bind, gets, modify, ret, set_chain, set_transactions.
  destruct (String.eqb_spec previousHash "") as [->|_]; [congruence|].
  reflexivity.
Qed.

Lemma NewBlock_panics (proof now : Z) (bc : Blockchain) :
  chain bc = [] -> NewBlock proof "" now bc = Panicked bc.
Proof.
  intros Hb. unfold NewBlock, bind, gets, index_last.
  cbn [String.eqb]. rewrite Hb. reflexivity.
Qed.

Lemma NewBlockchain_genesis (now : Z) :
  NewBlockchain now =
  Done (mkBlock 1 now [] 100 "1")
       (mkBlockchain [mkBlock 1 now [] 100 "1"] [] ∅).
Proof. unfold NewBlockchain. rewrite NewBlock_given by discriminate. reflexivity. Qed.

(** ** The chain validator *)

Lemma ValidChain_loop_cons (lastBlock block : Block) (rest : list Block) :
  ValidChain_loop lastBlock (block :: rest) =
  pair_ok lastBlock block && ValidChain_loop block rest.
Proof.
  cbn [ValidChain_loop]. unfold pair_ok.
  destruct (String.eqb _ _); [|reflexivity].
  destruct (ValidProof _ _); reflexivity.
Qed.

Lemma isValid_spec_cons (a b : Block) (rest : list Block) :
  isValid_spec (a :: b :: rest) <->
  pair_ok a b = true /\ isValid_spec (b :: rest).
Proof.
  unfold isValid_spec. split.
  - intros H. split.
    + apply (H 0%nat); reflexivity.
    + intros i prev cur Hp Hc. apply (H (S i)); assumption.
  - intros [Hab H] [|i] prev cur Hp Hc.
    + cbn in Hp, Hc. congruence.
    + apply (H i); assumption.
Qed.

Lemma ValidChain_loop_spec (rest : list Block) :
  forall lastBlock : Block,
    ValidChain_loop lastBlock rest = true <-> isValid_spec (lastBlock :: rest).
Proof.
  induction rest as [|block rest IH]; intros lastBlock.
  - split; [|reflexivity]. intros _ [|i] prev cur Hp Hc; discriminate.
  - rewrite ValidChain_loop_cons, isValid_spec_cons, andb_true_iff, IH.
    reflexivity.
Qed.

Lemma ValidChain_nonempty (c : list Block) (v : bool) :
  ValidChain c = Some v -> c <> [].
Proof. destruct c; [discriminate|congruence]. Qed.

(** * C5 *)

(** C5.  On a chain of at least one block [ValidChain] returns, and what
    it returns is [true] exactly when every adjacent pair of blocks
    [(prev, cur)] has [cur.PreviousHash] equal to the hash of [prev] and
    [ValidProof(prev.Proof, cur.Proof)]; a chain of one block is valid; a
    violating pair makes the answer [false] whatever follows it. *)
Theorem ValidChain_checks_every_pair (c : list Block) :
  (0 < length c)%nat ->
  (exists v : bool,
      ValidChain c = Some v /\ (v = true <-> isValid_spec c)) /\
  (length c = 1%nat -> ValidChain c = Some true) /\
  (forall (i : nat) (prev cur : Block),
      c !! i = Some prev -> c !! S i = Some cur ->
      pair_ok prev cur = false ->
      forall later : list Block,
        ValidChain (take (S (S i)) c ++ later) = Some false).
Proof.
  intros Hlen.
  assert (Hall : forall c' : list Block, c' <> [] ->
            exists v, ValidChain c' = Some v /\ (v = true <-> isValid_spec c')).
  { intros [|b rest] Hne; [congruence|].
    exists (ValidChain_loop b rest). split; [reflexivity|].
    apply ValidChain_loop_spec. }
  split; [|split].
  - apply Hall. intros ->. cbn in Hlen. lia.
  - destruct c as [|b [|b' rest]]; cbn; intros; try reflexivity; lia.
  - intros i prev cur Hp Hc Hbad later.
    assert (Hi : (S i < length c)%nat) by (eapply lookup_lt_Some; exact Hc).
    destruct (Hall (take (S (S i)) c ++ later)%list) as (v & Hv & Hiff).
    { intros Hnil. apply (f_equal length) in Hnil.
      rewrite length_app, length_take in Hnil.
      change (length (@nil Block)) with 0%nat in Hnil. lia. }
    rewrite Hv. f_equal. destruct v; [|reflexivity].
    assert (Hok : pair_ok prev cur = true).
    { apply (proj1 Hiff eq_refl i).
      - rewrite lookup_app_l by (rewrite length_take; lia).
        rewrite lookup_take_lt by lia. exact Hp.
      - rewrite lookup_app_l by (rewrite length_take; lia).
        rewrite lookup_take_lt by lia. exact Hc. }
    congruence.
Qed.

(** * C6 *)

(** C6.  When some non-negative [int64] solves the puzzle for
    [lastProof], [ProofOfWork] returns (given fuel for that many rounds)
    the least non-negative [proof] with [ValidProof(lastProof, proof)],
    and no run returns anything else; [ValidProof] holds exactly when the
    first four characters of the SHA-256 digest, in hexadecimal, of the
    two numbers printed in decimal one after the other are all '0'. *)
Theorem ProofOfWork_returns_least (lastProof p : Z) :
  0 <= p <= max_int ->
  ValidProof lastProof p = true ->
  exists q : Z,
    0 <= q <= p /\
    ValidProof lastProof q = true /\
    (forall r, 0 <= r < q -> ValidProof lastProof r = false) /\
    (forall fuel, (Z.to_nat q < fuel)%nat -> ProofOfWork fuel lastProof = Some q) /\
    (forall fuel r, ProofOfWork fuel lastProof = Some r -> r = q) /\
    (forall a b : Z,
        ValidProof a b = true <->
        (forall i : nat, (i < 4)%nat ->
           String.get i (ComputeHashSha256 (decimal a ++ decimal b))
           = Some "0"%char)).
Proof.
  intros Hp Hv.
  destruct (ProofOfWork_total lastProof p Hp Hv) as (q & Hq & Hvq & Hleast & Hrun).
  exists q. repeat split; try assumption; try lia.
  - intros fuel r Hr.
    pose proof (Hrun (S (Z.to_nat q) + fuel)%nat ltac:(lia)) as Hbig.
    unfold ProofOfWork in *.
    apply ProofOfWork_loop_mono with (fuel' := (S (Z.to_nat q) + fuel)%nat) in Hr;
      [congruence|lia].
  - apply ValidProof_zeros.
  - apply ValidProof_zeros.
Qed.

(** ** Conflict resolution *)


(** What the loop leaves in its two variables: what it started with, or
    the reported length and the chain of a peer whose chain is valid and
    whose reported length is greater than the length at the start. *)
Lemma ResolveConflicts_loop_result (http_Get : string -> option Response)
    (keys : list string) :
  forall (m0 : Z) (c0 : list Block) (m : Z) (c : list Block),
    ResolveConflicts_loop http_Get keys (m0, c0) = Some (m, c) ->
    (m = m0 /\ c = c0) \/
    (m > m0 /\
     exists node anotherchain,
       node ∈ keys /\
       findExternalChain http_Get node = Some anotherchain /\
       ValidChain (Chain anotherchain) = Some true /\
       Length anotherchain = m /\ Chain anotherchain = c).
Proof.
  induction keys as [|node keys IH]; intros m0 c0 m c Hrun.
  - cbn in Hrun. left. split; congruence.
  - cbn [ResolveConflicts_loop] in Hrun.
    destruct (ResolveConflicts_body http_Get node (m0, c0)) as [[m1 c1]|] eqn:Hbody;
      [|discriminate].
    assert (Hstep : (m1 = m0 /\ c1 = c0) \/
              (m1 > m0 /\ exists anotherchain,
                  findExternalChain http_Get node = Some anotherchain /\
                  ValidChain (Chain anotherchain) = Some true /\
                  Length anotherchain = m1 /\ Chain anotherchain = c1)).
    { unfold ResolveConflicts_body in Hbody.
      destruct (findExternalChain http_Get node) as [a|] eqn:Hf;
        [|left; split; congruence].
      destruct (ValidChain (Chain a)) as [[|]|] eqn:Hv;
        [|left; split; congruence|discriminate].
      destruct (Length a >? m0) eqn:Hgt; [|left; split; congruence].
      right. injection Hbody as <- <-. split; [lia|]. exists a. auto. }
    destruct (IH m1 c1 m c Hrun) as [[-> ->]|(Hgt & n & a & Hn & Hf & Hv & Hl & Hc)].
    + destruct Hstep as [[-> ->]|(Hgt & a & Hf & Hv & Hl & Hc)]; [left; auto|].
      right. split; [exact Hgt|]. exists node, a.
      split; [apply list_elem_of_here|auto].
    + right. split.
      * destruct Hstep as [[-> _]|[Hgt1 _]]; lia.
      * exists n, a. split; [apply list_elem_of_further; exact Hn|auto].
Qed.

(** The length the loop ends with is at least every reported length of a
    valid peer chain, and at least the length it started with. *)
Lemma ResolveConflicts_loop_longest (http_Get : string -> option Response)
    (keys : list string) :
  forall (m0 : Z) (c0 : list Block) (m : Z) (c : list Block),
    ResolveConflicts_loop http_Get keys (m0, c0) = Some (m, c) ->
    m0 <= m /\
    forall node anotherchain,
      node ∈ keys ->
      findExternalChain http_Get node = Some anotherchain ->
      ValidChain (Chain anotherchain) = Some true ->
      Length anotherchain <= m.
Proof.
  induction keys as [|node keys IH]; intros m0 c0 m c Hrun.
  - cbn in Hrun. split; [injection Hrun; lia|].
    intros n a Hn. inversion Hn.
  - cbn [ResolveConflicts_loop] in Hrun.
    destruct (ResolveConflicts_body http_Get node (m0, c0)) as [[m1 c1]|] eqn:Hbody;
      [|discriminate].
    destruct (IH m1 c1 m c Hrun) as [Hle Hall].
    assert (Hstep : m0 <= m1 /\
              forall a, findExternalChain http_Get node = Some a ->
                        ValidChain (Chain a) = Some true -> Length a <= m1).
    { unfold ResolveConflicts_body in Hbody.
      destruct (findExternalChain http_Get node) as [a|] eqn:Hf.
      - destruct (ValidChain (Chain a)) as [[|]|] eqn:Hv; [| |discriminate].
        + destruct (Length a >? m0) eqn:Hgt; injection Hbody as <- <-.
          * split; [lia|]. intros a' [= <-] _. lia.
          * split; [lia|]. intros a' [= <-] _. lia.
        + injection Hbody as <- <-. split; [lia|]. intros a' [= <-]. congruence.
      - injection Hbody as <- <-. split; [lia|]. discriminate. }
    split; [lia|]. intros n a Hn Hf Hv.
    apply elem_of_cons in Hn as [->|Hn].
    + destruct Hstep as [_ Hs]. specialize (Hs a Hf Hv). lia.
    + eapply Hall; eassumption.
Qed.

(** * C3 *)


(** * C8 *)


(** ** Running [ResolveConflicts] and [Mine] *)

Lemma bind_Done {A B} (m : M A) (f : A -> M B) (bc bc' : Blockchain) (a : A) :
  m bc = Done a bc' -> bind m f bc = f a bc'.
Proof. intros H. unfold bind. rewrite H. reflexivity. Qed.

Lemma ResolveConflicts_run (http_Get : string -> option Response)
    (keys : list string) (bc : Blockchain) :
  ResolveConflicts http_Get keys bc =
  match ResolveConflicts_loop http_Get keys
          (Z.of_nat (length (chain bc)), chain bc) with
  | Some (_, tempChain) =>
      Done false (mkBlockchain tempChain (transactions bc) (nodes bc))
  | None => Panicked bc
  end.
Proof.
  unfold ResolveConflicts, bind, gets. cbv beta iota.
  destruct (ResolveConflicts_loop _ _ _) as [[m c]|]; reflexivity.
Qed.

Lemma ResolveConflicts_never_true (http_Get : string -> option Response)
    (keys : list string) (bc bc' : Blockchain) (r : bool) :
  ResolveConflicts http_Get keys bc = Done r bc' -> r = false.
Proof.
  rewrite ResolveConflicts_run.
  destruct (ResolveConflicts_loop _ _ _) as [[m c]|]; congruence.
Qed.

Lemma ResolveConflicts_resolved (http_Get : string -> option Response)
    (keys : list string) (bc bc' : Blockchain) :
  ledger_of (ResolveConflicts http_Get keys bc) = Some bc' ->
  resolved http_Get keys (chain bc) (chain bc') /\
  transactions bc' = transactions bc /\ nodes bc' = nodes bc.
Proof.
  rewrite ResolveConflicts_run.
  destruct (ResolveConflicts_loop _ _ _) as [[m c]|] eqn:Hrun; cbn [ledger_of].
  - intros [= <-]. cbn [chain transactions nodes]. split; [|auto].
    destruct (ResolveConflicts_loop_result _ _ _ _ _ _ Hrun)
      as [[_ ->]|(Hgt & n & a & Hn & Hf & Hv & Hl & Hc)]; [left; reflexivity|].
    right. exists n, a. repeat split; try assumption. lia.
  - intros [= <-]. split; [left; reflexivity|auto].
Qed.

Lemma resolved_nonempty (http_Get : string -> option Response)
    (keys : list string) (c c' : list Block) :
  resolved http_Get keys c c' -> c <> [] -> c' <> [].
Proof.
  intros [->|(n & a & _ & _ & Hv & _ & <-)] Hne; [exact Hne|].
  eapply ValidChain_nonempty; exact Hv.
Qed.

Lemma appended_nonempty (c c' : list Block) :
  appended c c' -> c <> [] -> c' <> [].
Proof.
  intros [->|(nb & -> & _)] Hne; [exact Hne|].
  intros H. apply app_eq_nil in H as [_ H]. discriminate.
Qed.

(** One turn of the loop of [Mine] leaves the ledger as it is. *)
Lemma Mine_loop_cases (fuel fuel_left : nat) (bc : Blockchain) (lb : Block) :
  last (chain bc) = Some lb ->
  Mine_loop fuel fuel_left bc = OutOfFuel \/
  exists q, Mine_loop fuel fuel_left bc = Done q bc /\
            ProofOfWork fuel (Proof lb) = Some q /\ q <> -1 /\
            ValidProof (Proof lb) q = true.
Proof.
  intros Hlb. induction fuel_left as [|k IH]; [left; reflexivity|].
  cbn [Mine_loop].
  rewrite (bind_Done _ _ _ _ _ (LastBlock_returns _ _ Hlb)).
  destruct (ProofOfWork fuel (Proof lb)) as [q|] eqn:Hpow; [|left; reflexivity].
  destruct (Z.eqb_spec q (-1)) as [->|Hne]; [exact IH|].
  rewrite (bind_Done _ _ _ _ _ (LastBlock_returns _ _ Hlb)).
  destruct (ValidProof (Proof lb) q) eqn:Hv; cbn [negb]; [|exact IH].
  right. exists q. auto.
Qed.

Lemma Mine_loop_returns (fuel fuel_left : nat) (bc : Blockchain) (lb : Block) (q : Z) :
  last (chain bc) = Some lb ->
  ProofOfWork fuel (Proof lb) = Some q -> q <> -1 ->
  ValidProof (Proof lb) q = true ->
  Mine_loop fuel (S fuel_left) bc = Done q bc.
Proof.
  intros Hlb Hpow Hne Hv. cbn [Mine_loop].
  rewrite (bind_Done _ _ _ _ _ (LastBlock_returns _ _ Hlb)), Hpow.
  destruct (Z.eqb_spec q (-1)) as [->|_]; [congruence|].
  rewrite (bind_Done _ _ _ _ _ (LastBlock_returns _ _ Hlb)), Hv. reflexivity.
Qed.

Lemma Mine_fees_returns (nodeId : string) (txs : list Transaction) :
  forall (bc : Blockchain) (lb : Block),
    last (chain bc) = Some lb ->
    Mine_fees nodeId txs bc =
    Done tt (mkBlockchain (chain bc)
               (transactions bc ++
                List.map (fun tx => mkTransaction (Sender tx) nodeId (Fee tx) 0) txs)
               (nodes bc)).
Proof.
  induction txs as [|tx txs IH]; intros bc lb Hlb.
  - cbn. rewrite app_nil_r. destruct bc; reflexivity.
  - cbn [Mine_fees List.map].
    rewrite (bind_Done _ _ _ _ _ (NewTransaction_returns _ _ _ Hlb)).
    rewrite (IH _ lb) by exact Hlb. cbn [chain transactions nodes].
    rewrite <- app_assoc. reflexivity.
Qed.

(** What [Mine] does once conflicts are resolved and the loop has its
    proof. *)
Lemma Mine_forges (nodeId : string) (http_Get : string -> option Response)
    (keys : list string) (now : Z) (fuel : nat)
    (bc bc1 : Blockchain) (r : bool) (lb : Block) (q : Z) :
  ResolveConflicts http_Get keys bc = Done r bc1 ->
  last (chain bc1) = Some lb ->
  Mine_loop fuel fuel bc1 = Done q bc1 ->
  Mine nodeId http_Get keys now fuel bc =
  let block :=
    mkBlock (wrap64 (Z.of_nat (length (chain bc1)) + 1)) now
            (transactions bc1 ++
             List.map (fun tx => mkTransaction (Sender tx) nodeId (Fee tx) 0)
                      (transactions bc1) ++
             [mkTransaction "0" nodeId 1 0])
            q (computeHashForBlock lb) in
  Done block (mkBlockchain (chain bc1 ++ [block]) [] (nodes bc1)).
Proof.
  intros Hres Hlb Hloop. unfold Mine.
  rewrite (bind_Done _ _ _ _ _ Hres).
  unfold bind at 1, gets at 1. cbv beta iota.
  rewrite (bind_Done _ _ _ _ _ Hloop).
  rewrite (bind_Done _ _ _ _ _ (Mine_fees_returns nodeId _ _ _ Hlb)).
  erewrite bind_Done; [|apply NewTransaction_returns with (b := lb); exact Hlb].
  cbn [chain transactions nodes].
  erewrite bind_Done; [|apply NewBlock_linked with (prev := lb); exact Hlb].
  cbn [chain transactions nodes]. unfold ret.
  rewrite <- app_assoc. reflexivity.
Qed.

Lemma RegisterNode_frame (address : string) (bc bc' : Blockchain) :
  ledger_of (RegisterNode address bc) = Some bc' ->
  chain bc' = chain bc /\ transactions bc' = transactions bc.
Proof.
  unfold RegisterNode. destruct (url_Parse address) as [u|]; cbn.
  - intros [= <-]. split; reflexivity.
  - intros [= <-]. split; reflexivity.
Qed.

(** The chain after a call. *)
Lemma after_chain (o : op) (bc bc' : Blockchain) :
  chain bc <> [] ->
  after o bc = Some bc' ->
  match o with
  | CallResolveConflicts http_Get keys =>
      resolved http_Get keys (chain bc) (chain bc')
  | CallMine _ http_Get keys _ _ =>
      exists c1, resolved http_Get keys (chain bc) c1 /\ appended c1 (chain bc')
  | _ => appended (chain bc) (chain bc')
  end.
Proof.
  intros Hne Hafter.
  destruct (proj2 (last_is_Some (chain bc)) Hne) as [lb Hlb].
  destruct o as [proof previousHash now|tx|address|http_Get keys
                |nodeId http_Get keys now fuel]; cbn [after] in Hafter.
  - destruct (String.eqb_spec previousHash "") as [->|Hgiven].
    + rewrite (NewBlock_linked _ _ _ _ Hlb) in Hafter.
      cbn in Hafter. injection Hafter as <-. right. eexists. split; reflexivity.
    + rewrite (NewBlock_given _ _ _ _ Hgiven) in Hafter.
      cbn in Hafter. injection Hafter as <-. right. eexists. split; reflexivity.
  - rewrite (NewTransaction_returns _ _ _ Hlb) in Hafter.
    cbn in Hafter. injection Hafter as <-. left. reflexivity.
  - apply RegisterNode_frame in Hafter as [Hc _]. left. exact Hc.
  - apply ResolveConflicts_resolved in Hafter. tauto.
  - destruct (ResolveConflicts http_Get keys bc) as [r bc1|bc1|] eqn:Hres.
    + assert (Hres' : ledger_of (ResolveConflicts http_Get keys bc) = Some bc1)
        by (rewrite Hres; reflexivity).
      apply ResolveConflicts_resolved in Hres' as (Hresolved & _ & _).
      exists (chain bc1). split; [exact Hresolved|].
      pose proof (resolved_nonempty _ _ _ _ Hresolved Hne) as Hne1.
      destruct (proj2 (last_is_Some (chain bc1)) Hne1) as [lb1 Hlb1].
      destruct (Mine_loop_cases fuel fuel bc1 lb1 Hlb1) as [Hout|(q & Hq & _)].
      * unfold Mine in Hafter. rewrite (bind_Done _ _ _ _ _ Hres) in Hafter.
        unfold bind at 1, gets at 1 in Hafter. cbv beta iota in Hafter.
        unfold bind at 1 in Hafter. rewrite Hout in Hafter. discriminate.
      * rewrite (Mine_forges _ _ _ _ _ _ _ _ _ _ Hres Hlb1 Hq) in Hafter.
        cbn in Hafter. injection Hafter as <-. right. eexists. split; reflexivity.
    + unfold Mine, bind at 1 in Hafter. rewrite Hres in Hafter.
      cbn in Hafter. injection Hafter as <-.
      assert (Hres' : ledger_of (ResolveConflicts http_Get keys bc) = Some bc1)
        by (rewrite Hres; reflexivity).
      apply ResolveConflicts_resolved in Hres' as (Hresolved & _ & _).
      exists (chain bc1). split; [exact Hresolved|left; reflexivity].
    + unfold Mine, bind at 1 in Hafter. rewrite Hres in Hafter. discriminate.
Qed.

(** ** Invariants of the reachable ledgers *)

Lemma reachable_by_weaken (P : op -> Blockchain -> Prop) (bc : Blockchain) :
  reachable_by P bc -> reachable bc.
Proof.
  induction 1 as [now g bc Hnew|bc o bc' _ IH Hpoll _ Hafter].
  - eapply reachable_new; exact Hnew.
  - eapply reachable_call; eauto.
Qed.

Lemma after_nonempty (o : op) (bc bc' : Blockchain) :
  chain bc <> [] -> after o bc = Some bc' -> chain bc' <> [].
Proof.
  intros Hne Hafter. pose proof (after_chain o bc bc' Hne Hafter) as H.
  destruct o; try (eapply appended_nonempty; eassumption).
  - eapply resolved_nonempty; eassumption.
  - destruct H as (c1 & Hr & Ha).
    eapply appended_nonempty; [exact Ha|].
    eapply resolved_nonempty; eassumption.
Qed.

Lemma reachable_nonempty (bc : Blockchain) : reachable bc -> chain bc <> [].
Proof.
  induction 1 as [now g bc Hnew|bc o bc' _ IH _ _ Hafter].
  - rewrite NewBlockchain_genesis in Hnew. injection Hnew as _ <-. discriminate.
  - eapply after_nonempty; eassumption.
Qed.

Lemma appended_sequential (c c' : list Block) :
  appended c c' -> sequential c -> sequential c'.
Proof.
  intros [->|(nb & -> & Hnb)] Hseq; [exact Hseq|].
  intros i b Hi. apply lookup_app_Some in Hi as [Hi|[Hle Hi]].
  - apply Hseq. exact Hi.
  - apply list_lookup_singleton_Some in Hi as [Hi <-].
    rewrite Hnb. f_equal. lia.
Qed.

(** * C10 *)

(** C10.  [NewBlockchain] returns a ledger whose chain is the genesis
    block alone, with proof 100 and previous hash "1"; every call on a
    ledger whose chain is not empty leaves a chain that is not empty; so
    on every reachable ledger the chain is not empty, [LastBlock] returns
    its last block and [NewTransaction] returns, neither panics. *)
Theorem chain_never_empty (bc : Blockchain) :
  reachable bc ->
  chain bc <> [] /\
  (exists b : Block,
      last (chain bc) = Some b /\
      LastBlock bc = Done b bc /\
      forall tx : Transaction,
        NewTransaction tx bc =
        Done (wrap64 (Index b + 1))
             (mkBlockchain (chain bc) (transactions bc ++ [tx]) (nodes bc))) /\
  (forall (o : op) (bc' : Blockchain),
      after o bc = Some bc' -> chain bc' <> []) /\
  (forall now : Z,
      exists genesis : Block,
        NewBlockchain now = Done genesis (mkBlockchain [genesis] [] ∅) /\
        Index genesis = 1 /\ Proof genesis = 100 /\ PreviousHash genesis = "1").
Proof.
  intros Hreach. pose proof (reachable_nonempty bc Hreach) as Hne.
  split; [exact Hne|]. split; [|split].
  - destruct (proj2 (last_is_Some (chain bc)) Hne) as [b Hb].
    exists b. split; [exact Hb|]. split; [apply LastBlock_returns; exact Hb|].
    intros tx. apply NewTransaction_returns. exact Hb.
  - intros o bc' Hafter. eapply after_nonempty; eassumption.
  - intros now. eexists. split; [apply NewBlockchain_genesis|]. auto.
Qed.

(** * C9 *)

(** C9, amended.  On every ledger reached from [NewBlockchain] by calls
    of [NewBlock], [Mine], [NewTransaction], [RegisterNode] and
    [ResolveConflicts] in which every peer chain that could be adopted
    (valid, and reported longer than the local chain) has sequential
    indices itself, the block at position [i] of the chain has index
    [i + 1], as an [int64]. *)
Theorem indices_sequential_when_peers_are (bc : Blockchain) :
  reachable_by adopts_sequential bc ->
  sequential (chain bc) /\
  (forall (i : nat) (b : Block),
      chain bc !! i = Some b -> Z.of_nat i + 1 <= max_int ->
      Index b = Z.of_nat i + 1).
Proof.
  intros Hreach.
  assert (Hseq : sequential (chain bc)).
  { induction Hreach as [now g bc Hnew|bc o bc' Hreach IH _ Hpeers Hafter].
    - rewrite NewBlockchain_genesis in Hnew. injection Hnew as _ <-.
      intros [|i] b Hi; [|discriminate]. injection Hi as <-. reflexivity.
    - pose proof (reachable_nonempty bc (reachable_by_weaken _ _ Hreach)) as Hne.
      pose proof (after_chain o bc bc' Hne Hafter) as H.
      assert (Hres : forall http_Get keys c1,
                 (forall node info, node ∈ keys ->
                    findExternalChain http_Get node = Some info ->
                    ValidChain (Chain info) = Some true ->
                    Length info > Z.of_nat (length (chain bc)) ->
                    sequential (Chain info)) ->
                 resolved http_Get keys (chain bc) c1 -> sequential c1).
      { intros h keys c1 Hall [->|(n & a & Hn & Hf & Hv & Hl & <-)]; [exact IH|].
        eapply Hall; eassumption. }
      destruct o; cbn [adopts_sequential] in Hpeers;
        try (eapply appended_sequential; eassumption).
      + eapply Hres; eassumption.
      + destruct H as (c1 & Hr & Ha).
        eapply appended_sequential; [exact Ha|]. eapply Hres; eassumption. }
  split; [exact Hseq|].
  intros i b Hi Hmax. rewrite (Hseq i b Hi).
  apply wrap64_in_range. unfold in_range, min_int, max_int in *. lia.
Qed.

(** * C7 *)

(** C7.  [NewBlock(proof, "")] on a chain that is not empty returns; the
    chain is then the old chain with the new block after it (one block
    longer, every earlier block in its place and unchanged), the pending
    pool is empty, and the new block's previous hash is the hash of the
    block that was last.  When [Mine] returns a block, this is how that
    block stands to the chain that conflict resolution left. *)
Theorem NewBlock_appends_one (proof now : Z) (bc : Blockchain) :
  chain bc <> [] ->
  (exists (prev newBlock : Block) (bc' : Blockchain),
      last (chain bc) = Some prev /\
      NewBlock proof "" now bc = Done newBlock bc' /\
      chain bc' = (chain bc ++ [newBlock])%list /\
      length (chain bc') = S (length (chain bc)) /\
      transactions bc' = [] /\
      PreviousHash newBlock = computeHashForBlock prev /\
      Proof newBlock = proof /\
      Transactions newBlock = transactions bc /\
      (forall (i : nat) (b : Block),
          chain bc !! i = Some b -> chain bc' !! i = Some b) /\
      nodes bc' = nodes bc) /\
  (forall (nodeId : string) (http_Get : string -> option Response)
          (keys : list string) (fuel : nat) (r : bool)
          (bc1 bc2 : Blockchain) (block : Block),
      ResolveConflicts http_Get keys bc = Done r bc1 ->
      Mine nodeId http_Get keys now fuel bc = Done block bc2 ->
      exists prev1 : Block,
        last (chain bc1) = Some prev1 /\
        chain bc2 = (chain bc1 ++ [block])%list /\
        length (chain bc2) = S (length (chain bc1)) /\
        transactions bc2 = [] /\
        PreviousHash block = computeHashForBlock prev1 /\
        (forall (i : nat) (b : Block),
            chain bc1 !! i = Some b -> chain bc2 !! i = Some b)).
Proof.
  intros Hne. split.
  - destruct (proj2 (last_is_Some (chain bc)) Hne) as [prev Hprev].
    eexists prev, _, _. split; [exact Hprev|].
    split; [apply NewBlock_linked; exact Hprev|].
    cbn [chain transactions nodes Proof PreviousHash Transactions].
    repeat split.
    + rewrite length_app. cbn. lia.
    + intros i b Hi. apply lookup_app_l_Some. exact Hi.
  - intros nodeId http_Get keys fuel r bc1 bc2 block Hres Hmine.
    assert (Hne1 : chain bc1 <> []).
    { assert (Hl : ledger_of (ResolveConflicts http_Get keys bc) = Some bc1)
        by (rewrite Hres; reflexivity).
      apply ResolveConflicts_resolved in Hl as (Hl & _).
      eapply resolved_nonempty; eassumption. }
    destruct (proj2 (last_is_Some (chain bc1)) Hne1) as [prev1 Hprev1].
    exists prev1. split; [exact Hprev1|].
    destruct (Mine_loop_cases fuel fuel bc1 prev1 Hprev1) as [Hout|(q & Hq & _)].
    + unfold Mine in Hmine. rewrite (bind_Done _ _ _ _ _ Hres) in Hmine.
      unfold bind at 1, gets at 1 in Hmine. cbv beta iota in Hmine.
      unfold bind at 1 in Hmine. rewrite Hout in Hmine. discriminate.
    + rewrite (Mine_forges _ _ _ _ _ _ _ _ _ _ Hres Hprev1 Hq) in Hmine.
      cbv zeta in Hmine. injection Hmine as <- <-.
      cbn [chain transactions nodes Proof PreviousHash Transactions].
      repeat split.
      * rewrite length_app. cbn. lia.
      * intros i b Hi. apply lookup_app_l_Some. exact Hi.
Qed.

(** * C2 *)

(** C2.  A transaction carries a fee, an integer.  When the pending pool
    holds one transaction, of fee 5 (a non-negative fee), conflict resolution
    returns and the puzzle for the last block has a solution, [Mine]
    returns (given the fuel to reach the solution) a block of exactly three
    transactions: the pending one, one of amount 5 and fee 0 to the node,
    and one from "0" to the node of amount 1 and fee 0; no fee in the block
    is negative, and the block is the last of the chain. *)
Theorem Mine_pays_fee_and_subsidy
    (nodeId : string) (http_Get : string -> option Response)
    (keys : list string) (now : Z) (bc bc1 : Blockchain) (r : bool)
    (tx : Transaction) (lb : Block) (p : Z) :
  transactions bc = [tx] ->
  Fee tx = 5 ->
  ResolveConflicts http_Get keys bc = Done r bc1 ->
  last (chain bc1) = Some lb ->
  0 <= p <= max_int ->
  ValidProof (Proof lb) p = true ->
  exists (block : Block) (bc' : Blockchain),
    (forall fuel : nat,
        (Z.to_nat p < fuel)%nat ->
        Mine nodeId http_Get keys now fuel bc = Done block bc') /\
    Transactions block =
      [tx;
       {| Sender := Sender tx; Recipient := nodeId; Amount := 5; Fee := 0 |};
       {| Sender := "0"; Recipient := nodeId; Amount := 1; Fee := 0 |}] /\
    length (Transactions block) = 3%nat /\
    (forall t, t ∈ Transactions block -> 0 <= Fee t) /\
    last (chain bc') = Some block /\
    transactions bc' = [].
Proof.
  intros Htx Hfee Hres Hlb Hp Hv.
  destruct (ProofOfWork_total (Proof lb) p Hp Hv) as (q & Hq & Hvq & _ & Hrun).
  assert (Htx1 : transactions bc1 = [tx]).
  { assert (Hl : ledger_of (ResolveConflicts http_Get keys bc) = Some bc1)
      by (rewrite Hres; reflexivity).
    apply ResolveConflicts_resolved in Hl as (_ & -> & _). exact Htx. }
  eexists _, _. split; [|split; [|split; [|split; [|split]]]].
  - intros fuel Hfuel. destruct fuel as [|k]; [lia|].
    apply (Mine_forges _ _ _ _ _ _ _ _ _ q Hres Hlb).
    apply Mine_loop_returns with (lb := lb); try assumption; [|lia].
    apply Hrun. lia.
  - cbn [Transactions]. rewrite Htx1. cbn [List.map app]. rewrite Hfee. reflexivity.
  - cbn [Transactions]. rewrite Htx1. reflexivity.
  - cbn [Transactions]. rewrite Htx1. cbn [List.map app]. intros t Ht.
    repeat (apply elem_of_cons in Ht as [->|Ht]); cbn [Fee]; try lia.
    inversion Ht.
  - cbn [chain]. apply last_snoc.
  - reflexivity.
Qed.

End Properties.

(* ===================================================================== *)
(** * Runs on concrete ledgers *)

Section Concrete.

#[local] Existing Instance Sample.lib.

Import Sample.

Lemma peer_is_polled : StringSet.Keys (nodes ledger1) [peer].
Proof.
  unfold StringSet.Keys, ledger1. cbn [nodes].
  rewrite elements_singleton. reflexivity.
Qed.

(** The search for the proof after 30916 tries 0 and 1 and stops at 2. *)
Example ProofOfWork_30916 :
  ProofOfWork 3 30916 = Some 2 /\ ProofOfWork 2 30916 = None.
Proof. split; vm_compute; reflexivity. Qed.

Lemma register_peer :
  after (CallRegisterNode "http://peer:5000") ledger0 = Some ledger1.
Proof. vm_compute. reflexivity. Qed.

Lemma ledger0_reachable (P : op -> Blockchain -> Prop) : reachable_by P ledger0.
Proof. apply (reachable_new P 0 genesis). apply NewBlockchain_genesis. Qed.

Lemma resolve_ahead :
  ResolveConflicts net_ahead [peer] ledger1 =
  Done false (mkBlockchain longer_chain [] (nodes ledger1)).
Proof.
  rewrite ResolveConflicts_run.
  assert (Hloop : ResolveConflicts_loop net_ahead [peer]
                    (Z.of_nat (length (chain ledger1)), chain ledger1)
                  = Some (2, longer_chain)) by (vm_compute; reflexivity).
  rewrite Hloop. reflexivity.
Qed.

(** * C1 *)

(** C1.  The local chain is the genesis block; the one peer answers with a
    valid chain of two blocks and reports the length 2.  [ResolveConflicts]
    installs the peer's chain and returns [false]. *)
Theorem ResolveConflicts_replaces_and_returns_false :
  StringSet.Keys (nodes ledger1) [peer] /\
  findExternalChain net_ahead peer = Some (mkInfo 2 longer_chain) /\
  ValidChain longer_chain = Some true /\
  2 > Z.of_nat (length (chain ledger1)) /\
  longer_chain <> chain ledger1 /\
  ResolveConflicts net_ahead [peer] ledger1 =
  Done false (mkBlockchain longer_chain [] (nodes ledger1)).
Proof.
  split; [exact peer_is_polled|].
  split; [reflexivity|].
  split; [vm_compute; reflexivity|].
  split; [cbn; lia|].
  split; [discriminate|].
  exact resolve_ahead.
Qed.

(** * C4 *)

(** C4.  A peer that answers with a status other than 200, or with an
    empty chain, makes [ResolveConflicts], and [Mine] with it, panic:
    [ValidChain] is called on the empty chain and reads its element 0. *)
Theorem ResolveConflicts_panics_on_empty_peer_chain :
  findExternalChain net_404 peer = Some (mkInfo 0 []) /\
  findExternalChain net_empty peer = Some (mkInfo 0 []) /\
  ValidChain [] = None /\
  ResolveConflicts net_404 [peer] ledger1 = Panicked ledger1 /\
  ResolveConflicts net_empty [peer] ledger1 = Panicked ledger1 /\
  (forall (nodeId : string) (now : Z) (fuel : nat),
      Mine nodeId net_empty [peer] now fuel ledger1 = Panicked ledger1).
Proof.
  assert (H404 : ResolveConflicts net_404 [peer] ledger1 = Panicked ledger1).
  { rewrite ResolveConflicts_run. reflexivity. }
  assert (Hempty : ResolveConflicts net_empty [peer] ledger1 = Panicked ledger1).
  { rewrite ResolveConflicts_run. reflexivity. }
  repeat split; try reflexivity; assumption.
Qed.

(** * C8, as stated *)


(** * C9, as stated *)

(** The ledger registers a peer and resolves conflicts; the peer reports
    a length of 2 and sends a single block numbered 7, which is adopted:
    the block at position 0 of the chain then has index 7. *)
Lemma indices_not_sequential_after_adoption :
  ~ (forall bc : Blockchain,
        reachable bc ->
        forall (i : nat) (b : Block),
          chain bc !! i = Some b -> Index b = Z.of_nat i + 1).
Proof.
  intros Hall.
  assert (Hreach : reachable (mkBlockchain [block7] [] (nodes ledger1))).
  { apply (reachable_call _ ledger1 (CallResolveConflicts net_seven [peer])).
    - apply (reachable_call _ ledger0 (CallRegisterNode "http://peer:5000")).
      + apply ledger0_reachable.
      + exact I.
      + exact I.
      + exact register_peer.
    - exact peer_is_polled.
    - exact I.
    - cbn [after]. rewrite ResolveConflicts_run. reflexivity. }
  specialize (Hall _ Hreach 0%nat block7 eq_refl). discriminate Hall.
Qed.

(** ** The theorems at work *)

Lemma longer_chain_sequential : sequential longer_chain.
Proof.
  intros [|[|i]] b Hi; try discriminate; injection Hi as <-; reflexivity.
Qed.

Lemma ledger1_reachable (P : op -> Blockchain -> Prop) :
  (forall bc, P (CallRegisterNode "http://peer:5000") bc) ->
  reachable_by P ledger1.
Proof.
  intros HP.
  apply (reachable_call P ledger0 (CallRegisterNode "http://peer:5000")).
  - apply ledger0_reachable.
  - exact I.
  - apply HP.
  - exact register_peer.
Qed.

Lemma caught_up_reachable :
  reachable_by adopts_sequential (mkBlockchain longer_chain [] (nodes ledger1)).
Proof.
  apply (reachable_call _ ledger1 (CallResolveConflicts net_ahead [peer])).
  - apply ledger1_reachable. intros bc. exact I.
  - exact peer_is_polled.
  - intros node info Hnode Hfetch _ _.
    apply list_elem_of_singleton in Hnode. subst node.
    injection Hfetch as <-. exact longer_chain_sequential.
  - cbn [after]. rewrite resolve_ahead. reflexivity.
Qed.

Lemma Mine_pays_fee_and_subsidy_witness :
  transactions ledger2 = [paying] /\
  Fee paying = 5 /\
  ResolveConflicts net_down [] ledger2 = Done false ledger2 /\
  last (chain ledger2) = Some tip /\
  ValidProof (Proof tip) 2 = true /\
  exists (block : Block) (bc' : Blockchain),
    Mine "miner" net_down [] 9 3 ledger2 = Done block bc' /\
    Transactions block =
      [paying; mkTransaction "alice" "miner" 5 0; mkTransaction "0" "miner" 1 0].
Proof.
  assert (Hv : ValidProof (Proof tip) 2 = true) by (vm_compute; reflexivity).
  repeat (split; [first [reflexivity | exact Hv]|]).
  destruct (Mine_pays_fee_and_subsidy "miner" net_down [] 9 ledger2 ledger2
              false paying tip 2 eq_refl eq_refl eq_refl eq_refl)
    as (block & bc' & Hrun & Htx & _).
  - unfold max_int. lia.
  - exact Hv.
  - exists block, bc'. split; [apply Hrun; cbn; lia|exact Htx].
Defined.


Lemma ValidChain_checks_every_pair_witness :
  (0 < length longer_chain)%nat /\
  exists v : bool,
    ValidChain longer_chain = Some v /\ (v = true <-> isValid_spec longer_chain).
Proof.
  assert (Hlen : (0 < length longer_chain)%nat) by (cbn; lia).
  split; [exact Hlen|].
  exact (proj1 (ValidChain_checks_every_pair longer_chain Hlen)).
Defined.

Lemma ProofOfWork_returns_least_witness :
  0 <= 35293 <= max_int /\
  ValidProof 100 35293 = true /\
  exists q : Z,
    0 <= q <= 35293 /\ ValidProof 100 q = true /\
    ProofOfWork (S (Z.to_nat q)) 100 = Some q.
Proof.
  assert (Hp : 0 <= 35293 <= max_int) by (unfold max_int; lia).
  assert (Hv : ValidProof 100 35293 = true) by (vm_compute; reflexivity).
  split; [exact Hp|]. split; [exact Hv|].
  destruct (ProofOfWork_returns_least 100 35293 Hp Hv)
    as (q & Hq & Hvq & _ & Hrun & _).
  exists q. split; [exact Hq|]. split; [exact Hvq|]. apply Hrun. lia.
Defined.

Lemma NewBlock_appends_one_witness :
  chain ledger2 <> [] /\
  exists (newBlock : Block) (bc' : Blockchain),
    NewBlock 7 "" 9 ledger2 = Done newBlock bc' /\
    chain bc' = [genesis; tip; newBlock] /\
    transactions bc' = [] /\
    PreviousHash newBlock = computeHashForBlock tip.
Proof.
  assert (Hne : chain ledger2 <> []) by discriminate.
  split; [exact Hne|].
  destruct (proj1 (NewBlock_appends_one 7 9 ledger2 Hne))
    as (prev & newBlock & bc' & Hprev & Hrun & Hchain & _ & Hpool & Hhash & _).
  injection Hprev as <-.
  exists newBlock, bc'. split; [exact Hrun|]. split; [exact Hchain|].
  split; [exact Hpool|exact Hhash].
Defined.

Lemma indices_sequential_when_peers_are_witness :
  reachable_by adopts_sequential (mkBlockchain longer_chain [] (nodes ledger1)) /\
  forall (i : nat) (b : Block),
    longer_chain !! i = Some b -> Z.of_nat i + 1 <= max_int ->
    Index b = Z.of_nat i + 1.
Proof.
  split; [exact caught_up_reachable|].
  exact (proj2 (indices_sequential_when_peers_are _ caught_up_reachable)).
Defined.

Lemma chain_never_empty_witness :
  reachable (mkBlockchain longer_chain [] (nodes ledger1)) /\
  LastBlock (mkBlockchain longer_chain [] (nodes ledger1)) =
  Done block2 (mkBlockchain longer_chain [] (nodes ledger1)).
Proof.
  assert (Hreach : reachable (mkBlockchain longer_chain [] (nodes ledger1))).
  { eapply reachable_by_weaken. exact caught_up_reachable. }
  split; [exact Hreach|].
  destruct (chain_never_empty _ Hreach) as (_ & (b & Hb & Hlast & _) & _).
  injection Hb as <-. exact Hlast.
Defined.

End Concrete.

(* ===================================================================== *)
(** * Further properties of the ledger *)

Section Ledger_properties.

Context `{lib : GoLib}.

(** ** Proof of work *)

Lemma ProofOfWork_loop_scan (lastProof : Z) (fuel : nat) :
  forall start : Z,
    0 <= start -> start + Z.of_nat fuel <= max_int + 1 ->
    match ProofOfWork_loop fuel lastProof start with
    | Some q =>
        start <= q < start + Z.of_nat fuel /\
        ValidProof lastProof q = true /\
        (forall r, start <= r < q -> ValidProof lastProof r = false)
    | None =>
        forall r, start <= r < start + Z.of_nat fuel ->
                  ValidProof lastProof r = false
    end.
Proof.
  induction fuel as [|fuel IH]; intros start Hs Hmax.
  - cbn [ProofOfWork_loop]. intros r Hr. lia.
  - cbn [ProofOfWork_loop].
    destruct (ValidProof lastProof start) eqn:Hv; cbn [negb].
    + split; [lia|]. split; [exact Hv|]. intros r Hr. lia.
    + destruct fuel as [|fuel'].
      { cbn [ProofOfWork_loop]. intros r Hr.
        assert (r = start) as -> by lia. exact Hv. }
      rewrite wrap64_succ by lia.
      specialize (IH (start + 1) ltac:(lia) ltac:(lia)).
      destruct (ProofOfWork_loop (S fuel') lastProof (start + 1)) as [q|].
      * destruct IH as (Hq & Hvq & Hbelow). split; [lia|]. split; [exact Hvq|].
        intros r Hr. destruct (Z.eq_dec r start) as [->|Hne]; [exact Hv|].
        apply Hbelow. lia.
      * intros r Hr. destruct (Z.eq_dec r start) as [->|Hne]; [exact Hv|].
        apply IH. lia.
Qed.

(** X1.  [ProofOfWork] tries 0, 1, 2, ... in this order: what it returns
    is a valid proof below which no non-negative number is valid, and a
    search that stops for want of fuel has found every number it tried
    invalid. *)
Theorem ProofOfWork_scans_in_order (fuel : nat) (lastProof : Z) :
  Z.of_nat fuel <= max_int + 1 ->
  match ProofOfWork fuel lastProof with
  | Some q =>
      0 <= q < Z.of_nat fuel /\
      ValidProof lastProof q = true /\
      (forall r, 0 <= r < q -> ValidProof lastProof r = false)
  | None =>
      forall r, 0 <= r < Z.of_nat fuel -> ValidProof lastProof r = false
  end.
Proof.
  intros Hfuel. unfold ProofOfWork.
  pose proof (ProofOfWork_loop_scan lastProof fuel 0 ltac:(lia) ltac:(lia)) as H.
  destruct (ProofOfWork_loop fuel lastProof 0) as [q|]; exact H.
Qed.

(** ** The chain validator *)

Lemma ValidChain_loop_app (r1 r2 : list Block) (b : Block) :
  forall a x : Block,
    last (a :: r1) = Some x ->
    ValidChain_loop a (r1 ++ b :: r2) =
    ValidChain_loop a r1 && pair_ok x b && ValidChain_loop b r2.
Proof.
  induction r1 as [|y r1 IH]; intros a x Hx.
  - cbn in Hx. injection Hx as <-. cbn [app].
    rewrite ValidChain_loop_cons. reflexivity.
  - rewrite last_cons_cons in Hx.
    change ((y :: r1) ++ b :: r2)%list with (y :: (r1 ++ b :: r2))%list.
    rewrite !ValidChain_loop_cons, (IH y x Hx), !andb_assoc. reflexivity.
Qed.

(** X2.  A chain made of two parts is valid exactly when both parts are
    valid and the first block of the second part is linked, by hash and by
    proof, to the last block of the first: every prefix and every suffix
    of a valid chain is valid. *)
Theorem ValidChain_of_two_parts (c1 c2 : list Block) (x y : Block) :
  last c1 = Some x ->
  head c2 = Some y ->
  exists v1 v2 : bool,
    ValidChain c1 = Some v1 /\
    ValidChain c2 = Some v2 /\
    ValidChain (c1 ++ c2) = Some (v1 && pair_ok x y && v2).
Proof.
  intros Hx Hy.
  destruct c1 as [|a r1]; [discriminate|].
  destruct c2 as [|b r2]; [discriminate|]. injection Hy as ->.
  exists (ValidChain_loop a r1), (ValidChain_loop y r2).
  split; [reflexivity|]. split; [reflexivity|].
  cbn [app ValidChain]. f_equal. apply ValidChain_loop_app. exact Hx.
Qed.

(** X3.  The validator reads of the last block its proof and its previous
    hash only: a chain whose last block is given another index, another
    timestamp or other transactions gets the same answer. *)
Theorem ValidChain_ignores_contents_of_last_block (c : list Block) (b b' : Block) :
  Proof b = Proof b' ->
  PreviousHash b = PreviousHash b' ->
  ValidChain (c ++ [b]) = ValidChain (c ++ [b']).
Proof.
  intros Hproof Hhash.
  destruct c as [|a r]; [reflexivity|].
  destruct (proj2 (last_is_Some (a :: r)) ltac:(discriminate)) as [x Hx].
  cbn [app ValidChain]. f_equal.
  rewrite !(ValidChain_loop_app r [] _ a x Hx).
  unfold pair_ok. rewrite Hproof, Hhash. reflexivity.
Qed.

(** ** Transactions and blocks *)

Lemma wrap64_add_wrap64 (x y : Z) : wrap64 (wrap64 x + y) = wrap64 (x + y).
Proof.
  unfold wrap64. f_equal.
  replace ((x + 2 ^ 63) mod 2 ^ 64 - 2 ^ 63 + y + 2 ^ 63)
    with ((x + 2 ^ 63) mod 2 ^ 64 + y) by ring.
  rewrite Z.add_mod_idemp_l by lia. f_equal. ring.
Qed.

(** X4.  On a chain whose indices are sequential, the number
    [NewTransaction] returns is the index of the block the next [NewBlock]
    forges, and that block holds the pool as it was with the transaction at
    its end. *)
Theorem NewTransaction_announces_next_block
    (tx : Transaction) (proof now : Z) (previousHash : string) (bc : Blockchain) :
  chain bc <> [] ->
  sequential (chain bc) ->
  exists (index : Z) (bc1 : Blockchain) (block : Block) (bc2 : Blockchain),
    NewTransaction tx bc = Done index bc1 /\
    NewBlock proof previousHash now bc1 = Done block bc2 /\
    Index block = index /\
    Transactions block = (transactions bc ++ [tx])%list /\
    last (chain bc2) = Some block.
Proof.
  intros Hne Hseq.
  destruct (proj2 (last_is_Some (chain bc)) Hne) as [lb Hlb].
  assert (Hidx : Index lb = wrap64 (Z.of_nat (length (chain bc)))).
  { apply last_Some in Hlb as [l' Hl']. rewrite Hl'.
    rewrite (Hseq (length l') lb).
    - rewrite length_app. cbn [length]. f_equal. lia.
    - rewrite Hl'. rewrite lookup_app_r by lia.
      rewrite Nat.sub_diag. reflexivity. }
  eexists _, _. rewrite (NewTransaction_returns tx bc lb Hlb).
  destruct (String.eqb_spec previousHash "") as [->|Hgiven].
  - eexists _, _. split; [reflexivity|].
    split; [apply NewBlock_linked with (prev := lb); exact Hlb|].
    cbn [Index Transactions chain transactions].
    split; [rewrite Hidx, wrap64_add_wrap64; reflexivity|].
    split; [reflexivity|apply last_snoc].
  - eexists _, _. split; [reflexivity|].
    split; [apply NewBlock_given; exact Hgiven|].
    cbn [Index Transactions chain transactions].
    split; [rewrite Hidx, wrap64_add_wrap64; reflexivity|].
    split; [reflexivity|apply last_snoc].
Qed.

(** X5.  On a ledger whose chain is empty [LastBlock] panics, and so does
    [NewBlock] without a previous hash, the ledger as it was; [NewTransaction]
    panics after it has put the transaction in the pool; [NewBlock] with a
    previous hash does not read the chain and forges block 1. *)
Theorem empty_chain_panics (bc : Blockchain) :
  chain bc = [] ->
  LastBlock bc = Panicked bc /\
  (forall proof now, NewBlock proof "" now bc = Panicked bc) /\
  (forall tx,
      NewTransaction tx bc =
      Panicked (mkBlockchain [] (transactions bc ++ [tx]) (nodes bc))) /\
  (forall proof now previousHash,
      previousHash <> "" ->
      NewBlock proof previousHash now bc =
      Done (mkBlock 1 now (transactions bc) proof previousHash)
           (mkBlockchain [mkBlock 1 now (transactions bc) proof previousHash]
                         [] (nodes bc))).
Proof.
  intros Hempty.
  split; [apply LastBlock_panics; exact Hempty|].
  split; [intros; apply NewBlock_panics; exact Hempty|].
  split.
  - intros tx. unfold NewTransaction, bind, gets, modify, set_transactions.
    rewrite LastBlock_panics by exact Hempty. rewrite Hempty. reflexivity.
  - intros proof now previousHash Hgiven.
    rewrite (NewBlock_given _ _ _ _ Hgiven), Hempty. reflexivity.
Qed.

(** ** Mining *)

Lemma total_amount_fee_credit (nodeId : string) (txs : list Transaction) :
  total_amount (List.map (fee_credit nodeId) txs) = total_fee txs /\
  total_fee (List.map (fee_credit nodeId) txs) = 0.
Proof.
  induction txs as [|tx txs [IHa IHf]]; [split; reflexivity|].
  cbn [List.map total_amount total_fee fold_right fee_credit Amount Fee] in *.
  unfold total_amount, total_fee in *. split; lia.
Qed.

(** X6.  When conflict resolution returns and the puzzle for the last
    block has a solution, [Mine] returns (given the fuel to reach it): the
    block holds the pending transactions in their order, then one credit to
    the node for each of them, of its fee and whatever the fee, then the
    subsidy; the credits add up to the fees of the pending transactions and
    bear no fee themselves; the block carries the least non-negative valid
    proof and the hash of the block before it; the pool is left empty and
    the peer set as it was; the handler answers 200. *)
Theorem Mine_block_contents
    (nodeId : string) (http_Get : string -> option Response)
    (keys : list string) (now : Z) (bc bc1 : Blockchain) (r : bool)
    (lb : Block) (p : Z) :
  ResolveConflicts http_Get keys bc = Done r bc1 ->
  last (chain bc1) = Some lb ->
  0 <= p <= max_int ->
  ValidProof (Proof lb) p = true ->
  exists (block : Block) (bc' : Blockchain),
    (forall fuel : nat,
        (Z.to_nat p < fuel)%nat ->
        Mine nodeId http_Get keys now fuel bc = Done block bc' /\
        handler.Mine nodeId http_Get keys now fuel bc =
        Done (mkresponse (Forged "New Block Forged" block) StatusOK None) bc') /\
    Transactions block =
      (transactions bc ++ List.map (fee_credit nodeId) (transactions bc)
       ++ [mkTransaction "0" nodeId 1 0])%list /\
    length (Transactions block) = (2 * length (transactions bc) + 1)%nat /\
    total_amount (List.map (fee_credit nodeId) (transactions bc))
    = total_fee (transactions bc) /\
    total_fee (List.map (fee_credit nodeId) (transactions bc)) = 0 /\
    ValidProof (Proof lb) (Proof block) = true /\
    (forall q, 0 <= q < Proof block -> ValidProof (Proof lb) q = false) /\
    PreviousHash block = computeHashForBlock lb /\
    chain bc' = (chain bc1 ++ [block])%list /\
    transactions bc' = [] /\
    nodes bc' = nodes bc.
Proof.
  intros Hres Hlb Hp Hv.
  destruct (ProofOfWork_total (Proof lb) p Hp Hv) as (q & Hq & Hvq & Hleast & Hrun).
  assert (Hl : ledger_of (ResolveConflicts http_Get keys bc) = Some bc1)
    by (rewrite Hres; reflexivity).
  apply ResolveConflicts_resolved in Hl as (_ & Htx1 & Hn1).
  pose (block :=
          mkBlock (wrap64 (Z.of_nat (length (chain bc1)) + 1)) now
            (transactions bc1 ++
             List.map (fun tx => mkTransaction (Sender tx) nodeId (Fee tx) 0)
                      (transactions bc1) ++
             [mkTransaction "0" nodeId 1 0])
            q (computeHashForBlock lb)).
  assert (Hmine : forall fuel : nat, (Z.to_nat p < fuel)%nat ->
            Mine nodeId http_Get keys now fuel bc =
            Done block (mkBlockchain (chain bc1 ++ [block]) [] (nodes bc1))).
  { intros fuel Hfuel. destruct fuel as [|k]; [lia|].
    apply (Mine_forges _ _ _ _ _ _ _ _ _ q Hres Hlb).
    apply Mine_loop_returns with (lb := lb); try assumption; [|lia].
    apply Hrun. lia. }
  exists block, (mkBlockchain (chain bc1 ++ [block]) [] (nodes bc1)).
  split; [|split; [|split; [|split; [|split; [|split]]]]].
  - intros fuel Hfuel. split; [apply Hmine; exact Hfuel|].
    unfold handler.Mine. rewrite (bind_Done _ _ _ _ _ (Hmine fuel Hfuel)).
    reflexivity.
  - unfold block. cbn [Transactions]. rewrite Htx1. reflexivity.
  - unfold block. cbn [Transactions].
    rewrite Htx1, !length_app, length_map. cbn. lia.
  - apply total_amount_fee_credit.
  - apply total_amount_fee_credit.
  - exact Hvq.
  - unfold block. cbn [Proof PreviousHash chain transactions nodes].
    split; [exact Hleast|]. split; [reflexivity|]. split; [reflexivity|].
    split; [reflexivity|exact Hn1].
Qed.

(** ** Chains that the handlers build are valid *)

Lemma ValidChain_snoc (c : list Block) (x b : Block) :
  ValidChain c = Some true ->
  last c = Some x ->
  pair_ok x b = true ->
  ValidChain (c ++ [b]) = Some true.
Proof.
  intros Hc Hx Hok. destruct c as [|a r]; [discriminate|].
  cbn [app ValidChain] in *. injection Hc as Hc. f_equal.
  rewrite (ValidChain_loop_app r [] b a x Hx), Hc, Hok. reflexivity.
Qed.

Lemma after_valid (o : op) (bc bc' : Blockchain) :
  through_the_handlers o bc ->
  ValidChain (chain bc) = Some true ->
  after o bc = Some bc' ->
  ValidChain (chain bc') = Some true.
Proof.
  intros Ho Hvalid Hafter.
  pose proof (ValidChain_nonempty _ _ Hvalid) as Hne.
  destruct (proj2 (last_is_Some (chain bc)) Hne) as [lb Hlb].
  assert (Hres : forall http_Get keys c1,
             resolved http_Get keys (chain bc) c1 -> ValidChain c1 = Some true).
  { intros h keys c1 [->|(n & a & _ & _ & Hv & _ & <-)]; assumption. }
  destruct o as [proof previousHash now|tx|address|http_Get keys
                |nodeId http_Get keys now fuel]; cbn [after] in Hafter.
  - destruct Ho.
  - rewrite (NewTransaction_returns _ _ _ Hlb) in Hafter.
    cbn in Hafter. injection Hafter as <-. exact Hvalid.
  - apply RegisterNode_frame in Hafter as [-> _]. exact Hvalid.
  - apply ResolveConflicts_resolved in Hafter as (Hr & _). eapply Hres; exact Hr.
  - destruct (ResolveConflicts http_Get keys bc) as [r bc1|bc1|] eqn:Hrun.
    + assert (Hl : ledger_of (ResolveConflicts http_Get keys bc) = Some bc1)
        by (rewrite Hrun; reflexivity).
      apply ResolveConflicts_resolved in Hl as (Hr & _).
      pose proof (Hres _ _ _ Hr) as Hvalid1.
      pose proof (ValidChain_nonempty _ _ Hvalid1) as Hne1.
      destruct (proj2 (last_is_Some (chain bc1)) Hne1) as [lb1 Hlb1].
      destruct (Mine_loop_cases fuel fuel bc1 lb1 Hlb1)
        as [Hout|(q & Hq & _ & _ & Hvq)].
      * unfold Mine in Hafter. rewrite (bind_Done _ _ _ _ _ Hrun) in Hafter.
        unfold bind at 1, gets at 1 in Hafter. cbv beta iota in Hafter.
        unfold bind at 1 in Hafter. rewrite Hout in Hafter. discriminate.
      * rewrite (Mine_forges _ _ _ _ _ _ _ _ _ _ Hrun Hlb1 Hq) in Hafter.
        cbn in Hafter. injection Hafter as <-. cbn [chain].
        apply ValidChain_snoc with (x := lb1); try assumption.
        unfold pair_ok. cbn [PreviousHash Proof].
        rewrite String.eqb_refl, Hvq. reflexivity.
    + unfold Mine, bind at 1 in Hafter. rewrite Hrun in Hafter.
      cbn in Hafter. injection Hafter as <-.
      assert (Hl : ledger_of (ResolveConflicts http_Get keys bc) = Some bc1)
        by (rewrite Hrun; reflexivity).
      apply ResolveConflicts_resolved in Hl as (Hr & _). eapply Hres; exact Hr.
    + unfold Mine, bind at 1 in Hafter. rewrite Hrun in Hafter. discriminate.
Qed.

(** X7.  On every ledger reached from [NewBlockchain] by calls of [Mine],
    [NewTransaction], [RegisterNode] and [ResolveConflicts] (no [NewBlock]
    with a proof of the caller's choosing) the chain passes [ValidChain]. *)
Theorem chains_built_by_handlers_are_valid (bc : Blockchain) :
  reachable_by through_the_handlers bc ->
  ValidChain (chain bc) = Some true.
Proof.
  induction 1 as [now g bc Hnew|bc o bc' _ IH _ Ho Hafter].
  - rewrite NewBlockchain_genesis in Hnew. injection Hnew as _ <-. reflexivity.
  - eapply after_valid; eassumption.
Qed.

(** ** More on conflict resolution *)

Lemma ResolveConflicts_body_None (http_Get : string -> option Response)
    (node : string) (st : Z * list Block) :
  ResolveConflicts_body http_Get node st = None <->
  exists info, findExternalChain http_Get node = Some info /\ Chain info = [].
Proof.
  unfold ResolveConflicts_body. destruct st as [m c].
  destruct (findExternalChain http_Get node) as [a|].
  - destruct (Chain a) as [|b rest] eqn:Hc; cbn [ValidChain].
    + split; [intros _; exists a; auto|reflexivity].
    + split.
      * destruct (ValidChain_loop b rest); [|discriminate].
        destruct (Length a >? m); discriminate.
      * intros (info & [= <-] & Hnil). congruence.
  - split; [discriminate|]. intros (info & Hf & _). discriminate.
Qed.

Lemma ResolveConflicts_loop_None (http_Get : string -> option Response)
    (keys : list string) :
  forall st : Z * list Block,
    ResolveConflicts_loop http_Get keys st = None <->
    exists node info,
      node ∈ keys /\ findExternalChain http_Get node = Some info /\
      Chain info = [].
Proof.
  induction keys as [|node keys IH]; intros st.
  - cbn. split; [discriminate|]. intros (n & i & Hn & _). inversion Hn.
  - cbn [ResolveConflicts_loop].
    destruct (ResolveConflicts_body http_Get node st) as [st'|] eqn:Hbody.
    + rewrite IH. split.
      * intros (n & i & Hn & Hf & Hc). exists n, i.
        split; [apply list_elem_of_further; exact Hn|auto].
      * intros (n & i & Hn & Hf & Hc).
        apply elem_of_cons in Hn as [->|Hn]; [|exists n, i; auto].
        assert (Hnone : ResolveConflicts_body http_Get node st = None)
          by (apply ResolveConflicts_body_None; exists i; auto).
        congruence.
    + split; [|reflexivity]. intros _.
      apply ResolveConflicts_body_None in Hbody as (i & Hf & Hc).
      exists node, i. split; [apply list_elem_of_here|auto].
Qed.

(** X8.  [ResolveConflicts] panics exactly when one of the peers it polls
    is fetched without error and with an empty chain (a status other than
    200 is such an answer); the ledger is then as it was, and [Mine], which
    resolves conflicts first, panics as well. *)
Theorem ResolveConflicts_panics_iff_empty_peer_chain
    (http_Get : string -> option Response) (keys : list string)
    (bc : Blockchain) :
  let empty_answer :=
    exists node info,
      node ∈ keys /\ findExternalChain http_Get node = Some info /\
      Chain info = [] in
  (ResolveConflicts http_Get keys bc = Panicked bc <-> empty_answer) /\
  (forall bc', ResolveConflicts http_Get keys bc = Panicked bc' -> bc' = bc) /\
  (empty_answer ->
   forall nodeId now fuel, Mine nodeId http_Get keys now fuel bc = Panicked bc) /\
  (forall node response,
      http_Get ("http://" ++ node ++ "/chain") = Some response ->
      StatusCode response <> StatusOK ->
      findExternalChain http_Get node = Some (mkInfo 0 [])).
Proof.
  intros empty_answer. subst empty_answer.
  rewrite ResolveConflicts_run.
  pose proof (ResolveConflicts_loop_None http_Get keys
                (Z.of_nat (length (chain bc)), chain bc)) as Hnone.
  destruct (ResolveConflicts_loop http_Get keys _) as [[m c]|] eqn:Hloop.
  - split; [split; [discriminate|]|].
    { intros H. apply Hnone in H. discriminate. }
    split; [discriminate|]. split.
    + intros H. apply Hnone in H. discriminate.
    + intros node response Hget Hstatus. unfold findExternalChain.
      rewrite Hget. destruct (Z.eqb_spec (StatusCode response) StatusOK);
        [contradiction|reflexivity].
  - split; [split; [intros _; apply Hnone; reflexivity|reflexivity]|].
    split; [congruence|]. split.
    + intros _ nodeId now fuel. unfold Mine, bind at 1.
      rewrite ResolveConflicts_run, Hloop. reflexivity.
    + intros node response Hget Hstatus. unfold findExternalChain.
      rewrite Hget. destruct (Z.eqb_spec (StatusCode response) StatusOK);
        [contradiction|reflexivity].
Qed.

Lemma ResolveConflicts_body_cases (http_Get : string -> option Response)
    (node : string) (m0 m1 : Z) (c0 c1 : list Block) :
  ResolveConflicts_body http_Get node (m0, c0) = Some (m1, c1) ->
  (m1 = m0 /\ c1 = c0 /\
   forall i, findExternalChain http_Get node = Some i ->
             ValidChain (Chain i) = Some true -> Length i <= m0) \/
  (exists a, findExternalChain http_Get node = Some a /\
             ValidChain (Chain a) = Some true /\
             Length a > m0 /\ m1 = Length a /\ c1 = Chain a).
Proof.
  unfold ResolveConflicts_body.
  destruct (findExternalChain http_Get node) as [a|].
  - destruct (ValidChain (Chain a)) as [[|]|] eqn:Hv; [| |discriminate].
    + destruct (Z.gtb_spec (Length a) m0) as [Hgt|Hle]; intros [= <- <-].
      * right. exists a. repeat split; try reflexivity; try assumption. lia.
      * left. split; [reflexivity|]. split; [reflexivity|].
        intros i [= <-] _. exact Hle.
    + intros [= <- <-]. left. split; [reflexivity|]. split; [reflexivity|].
      intros i [= <-]. congruence.
  - intros [= <- <-]. left. split; [reflexivity|]. split; [reflexivity|].
    discriminate.
Qed.

(** What the loop ends with: what it started with, no valid peer chain
    being reported longer; or the chain of the first peer, in the order of
    the keys, among those whose valid chain is reported longest. *)
Lemma ResolveConflicts_loop_first_longest (http_Get : string -> option Response)
    (keys : list string) :
  forall (m0 : Z) (c0 : list Block) (m : Z) (c : list Block),
    ResolveConflicts_loop http_Get keys (m0, c0) = Some (m, c) ->
    (m = m0 /\ c = c0 /\
     forall n i, n ∈ keys -> findExternalChain http_Get n = Some i ->
                 ValidChain (Chain i) = Some true -> Length i <= m0) \/
    (exists k1 node k2 info,
        keys = (k1 ++ node :: k2)%list /\
        findExternalChain http_Get node = Some info /\
        ValidChain (Chain info) = Some true /\
        Length info = m /\ m > m0 /\ Chain info = c /\
        (forall n i, n ∈ k1 -> findExternalChain http_Get n = Some i ->
                     ValidChain (Chain i) = Some true -> Length i < m) /\
        (forall n i, n ∈ k2 -> findExternalChain http_Get n = Some i ->
                     ValidChain (Chain i) = Some true -> Length i <= m)).
Proof.
  induction keys as [|node keys IH]; intros m0 c0 m c Hrun.
  - cbn in Hrun. injection Hrun as <- <-. left.
    split; [reflexivity|]. split; [reflexivity|]. intros n i Hn. inversion Hn.
  - cbn [ResolveConflicts_loop] in Hrun.
    destruct (ResolveConflicts_body http_Get node (m0, c0)) as [[m1 c1]|] eqn:Hbody;
      [|discriminate].
    apply ResolveConflicts_body_cases in Hbody
      as [(-> & -> & Hnode)|(a & Hfa & Hva & Hgt & -> & ->)].
    + destruct (IH _ _ _ _ Hrun)
        as [(-> & -> & Hall)|(k1 & n & k2 & i & -> & Hf & Hv & Hl & Hm & Hc & Hb & Ha)].
      * left. split; [reflexivity|]. split; [reflexivity|].
        intros n i Hn Hf Hv. apply elem_of_cons in Hn as [->|Hn]; eauto.
      * right. exists (node :: k1), n, k2, i.
        split; [reflexivity|]. repeat (split; [assumption|]).
        split; [|exact Ha].
        intros n' i' Hn' Hf' Hv'. apply elem_of_cons in Hn' as [->|Hn'].
        -- specialize (Hnode i' Hf' Hv'). lia.
        -- eapply Hb; eassumption.
    + destruct (IH _ _ _ _ Hrun)
        as [(-> & -> & Hall)|(k1 & n & k2 & i & -> & Hf & Hv & Hl & Hm & Hc & Hb & Ha)].
      * right. exists [], node, keys, a.
        split; [reflexivity|]. repeat (split; [first [assumption|reflexivity]|]).
        split; [intros n i Hn; inversion Hn|exact Hall].
      * right. exists (node :: k1), n, k2, i.
        split; [reflexivity|]. split; [exact Hf|]. split; [exact Hv|].
        split; [exact Hl|]. split; [lia|]. split; [exact Hc|].
        split; [|exact Ha].
        intros n' i' Hn' Hf' Hv'. apply elem_of_cons in Hn' as [->|Hn'].
        -- rewrite Hfa in Hf'. injection Hf' as <-. lia.
        -- eapply Hb; eassumption.
Qed.

(** X9.  When [ResolveConflicts] returns, the chain is the local one and no
    polled peer has a valid chain reported longer than it, or it is the
    chain of the first peer, in the order the peers are polled, among those
    whose valid chain is reported longest; the pending pool and the peer set
    are as they were. *)
Theorem ResolveConflicts_adopts_first_longest
    (http_Get : string -> option Response) (keys : list string)
    (bc bc' : Blockchain) (r : bool) :
  ResolveConflicts http_Get keys bc = Done r bc' ->
  transactions bc' = transactions bc /\
  nodes bc' = nodes bc /\
  ((chain bc' = chain bc /\
    forall n i, n ∈ keys -> findExternalChain http_Get n = Some i ->
                ValidChain (Chain i) = Some true ->
                Length i <= Z.of_nat (length (chain bc))) \/
   (exists k1 node k2 info,
       keys = (k1 ++ node :: k2)%list /\
       findExternalChain http_Get node = Some info /\
       ValidChain (Chain info) = Some true /\
       Length info > Z.of_nat (length (chain bc)) /\
       chain bc' = Chain info /\
       (forall n i, n ∈ k1 -> findExternalChain http_Get n = Some i ->
                    ValidChain (Chain i) = Some true -> Length i < Length info) /\
       (forall n i, n ∈ k2 -> findExternalChain http_Get n = Some i ->
                    ValidChain (Chain i) = Some true -> Length i <= Length info))).
Proof.
  rewrite ResolveConflicts_run.
  destruct (ResolveConflicts_loop http_Get keys _) as [[m c]|] eqn:Hloop;
    [|discriminate].
  intros [= _ <-]. cbn [chain transactions nodes].
  split; [reflexivity|]. split; [reflexivity|].
  apply ResolveConflicts_loop_first_longest in Hloop
    as [(_ & -> & Hall)|(k1 & n & k2 & i & -> & Hf & Hv & <- & Hm & <- & Hb & Ha)].
  - left. split; [reflexivity|exact Hall].
  - right. exists k1, n, k2, i. repeat (split; [first [assumption|reflexivity]|]).
    exact Ha.
Qed.

(** X10.  When no polled peer is fetched with an empty chain and none has a
    valid chain reported longer than the local chain (there is no peer, no
    peer answers, or their chains are invalid or not longer),
    [ResolveConflicts] returns [false] and the ledger is as it was. *)
Theorem ResolveConflicts_without_longer_peer
    (http_Get : string -> option Response) (keys : list string)
    (bc : Blockchain) :
  (forall n i, n ∈ keys -> findExternalChain http_Get n = Some i ->
               Chain i <> [] /\
               (ValidChain (Chain i) = Some true ->
                Length i <= Z.of_nat (length (chain bc)))) ->
  ResolveConflicts http_Get keys bc = Done false bc.
Proof.
  intros Hall. rewrite ResolveConflicts_run.
  destruct (ResolveConflicts_loop http_Get keys _) as [[m c]|] eqn:Hloop.
  - apply ResolveConflicts_loop_first_longest in Hloop
      as [(_ & -> & _)|(k1 & n & k2 & i & -> & Hf & Hv & <- & Hm & _)].
    + destruct bc; reflexivity.
    + assert (Hn : n ∈ (k1 ++ n :: k2)%list)
        by (apply elem_of_app; right; apply list_elem_of_here).
      destruct (Hall n i Hn Hf) as [_ Hle]. specialize (Hle Hv). lia.
  - apply ResolveConflicts_loop_None in Hloop as (n & i & Hn & Hf & Hc).
    destruct (Hall n i Hn Hf) as [Hne _]. contradiction.
Qed.

Lemma split_at_same_place {A} (k1 k2 k1' k2' : list A) (x x' : A) :
  (k1 ++ x :: k2 = k1' ++ x' :: k2')%list ->
  (k1 = k1' /\ x = x' /\ k2 = k2') \/ x ∈ k1' \/ x' ∈ k1.
Proof.
  revert k1'. induction k1 as [|a k1 IH]; intros [|a' k1'] Heq; cbn in Heq.
  - injection Heq as -> ->. left. auto.
  - injection Heq as -> _. right. left. apply list_elem_of_here.
  - injection Heq as -> _. right. right. apply list_elem_of_here.
  - injection Heq as -> Heq. destruct (IH _ Heq) as [(-> & -> & ->)|[H|H]].
    + left. auto.
    + right. left. apply list_elem_of_further. exact H.
    + right. right. apply list_elem_of_further. exact H.
Qed.

(** X11.  [ResolveConflicts] is idempotent: run again on the ledger it
    left, with the same answers from the peers polled in the same order, it
    returns with the ledger unchanged. *)
Theorem ResolveConflicts_twice
    (http_Get : string -> option Response) (keys : list string)
    (bc bc1 : Blockchain) (r : bool) :
  ResolveConflicts http_Get keys bc = Done r bc1 ->
  ResolveConflicts http_Get keys bc1 = Done false bc1.
Proof.
  rewrite ResolveConflicts_run.
  destruct (ResolveConflicts_loop http_Get keys _) as [[m c]|] eqn:Hloop1;
    [|discriminate].
  intros [= _ <-]. rewrite ResolveConflicts_run. cbn [chain transactions nodes].
  destruct (ResolveConflicts_loop http_Get keys (Z.of_nat (length c), c))
    as [[m' c']|] eqn:Hloop2.
  - f_equal. f_equal.
    pose proof (ResolveConflicts_loop_first_longest _ _ _ _ _ _ Hloop1) as H1.
    pose proof (ResolveConflicts_loop_first_longest _ _ _ _ _ _ Hloop2) as H2.
    destruct H2 as [(_ & -> & _)|(k1' & n' & k2' & i' & Hk' & Hf' & Hv' & Hl' & Hm' & Hc' & Hb' & Ha')];
      [reflexivity|].
    destruct H1 as [(-> & -> & Hall)|(k1 & n & k2 & i & Hk & Hf & Hv & Hl & Hm & Hc & Hb & Ha)].
    + (* the first run kept the local chain: the second run is the first *)
      rewrite Hloop1 in Hloop2. congruence.
    + assert (Hle : m <= m').
      { assert (Hn : n ∈ keys)
          by (rewrite Hk; apply elem_of_app; right; apply list_elem_of_here).
        rewrite Hk' in Hn. apply elem_of_app in Hn as [Hn|Hn].
        - specialize (Hb' n i Hn Hf Hv). lia.
        - apply elem_of_cons in Hn as [->|Hn].
          + rewrite Hf in Hf'. injection Hf' as <-. lia.
          + specialize (Ha' n i Hn Hf Hv). lia. }
      assert (Hge : m' <= m).
      { assert (Hn : n' ∈ keys)
          by (rewrite Hk'; apply elem_of_app; right; apply list_elem_of_here).
        rewrite Hk in Hn. apply elem_of_app in Hn as [Hn|Hn].
        - specialize (Hb n' i' Hn Hf' Hv'). lia.
        - apply elem_of_cons in Hn as [->|Hn].
          + rewrite Hf in Hf'. injection Hf' as <-. lia.
          + specialize (Ha n' i' Hn Hf' Hv'). lia. }
      assert (Heq : (k1 ++ n :: k2 = k1' ++ n' :: k2')%list) by congruence.
      apply split_at_same_place in Heq as [(_ & -> & _)|[Hin|Hin]].
      * rewrite Hf in Hf'. injection Hf' as <-. congruence.
      * specialize (Hb' n i Hin Hf Hv). lia.
      * specialize (Hb n' i' Hin Hf' Hv'). lia.
  - (* a panic does not depend on the chain the loop starts with *)
    apply ResolveConflicts_loop_None in Hloop2.
    apply (ResolveConflicts_loop_None http_Get keys
             (Z.of_nat (length (chain bc)), chain bc)) in Hloop2.
    congruence.
Qed.

(** ** The peer registry *)

Lemma RegisterNode_returns (address : string) (bc : Blockchain) :
  RegisterNode address bc =
  match url_Parse address with
  | Some u =>
      Done (bool_decide (Host u ∉ nodes bc))
           (mkBlockchain (chain bc) (transactions bc) ({[ Host u ]} ∪ nodes bc))
  | None => Done false bc
  end.
Proof. unfold RegisterNode. destruct (url_Parse address); reflexivity. Qed.

(** X12.  Registering an address a second time returns [false] and changes
    nothing; registering two addresses in one order or the other leaves the
    same ledger. *)
Theorem RegisterNode_idempotent_and_commutative (a b : string) (bc : Blockchain) :
  exists (r1 : bool) (bc1 : Blockchain),
    RegisterNode a bc = Done r1 bc1 /\
    RegisterNode a bc1 = Done false bc1 /\
    exists (r2 r1' r2' : bool) (bc2 bc1' : Blockchain),
      RegisterNode b bc1 = Done r2 bc2 /\
      RegisterNode b bc = Done r1' bc1' /\
      RegisterNode a bc1' = Done r2' bc2.
Proof.
  rewrite !RegisterNode_returns.
  destruct (url_Parse a) as [ua|] eqn:Ha; destruct (url_Parse b) as [ub|] eqn:Hb.
  - eexists _, _. split; [reflexivity|]. rewrite RegisterNode_returns, Ha.
    cbn [chain transactions nodes]. split.
    + f_equal.
      * apply bool_decide_eq_false. intros Hnot. apply Hnot.
        apply elem_of_union_l, elem_of_singleton. reflexivity.
      * f_equal. apply set_eq. intros x. rewrite !elem_of_union. tauto.
    + eexists _, _, _, _, _. rewrite !RegisterNode_returns, Ha, Hb.
      cbn [chain transactions nodes].
      split; [reflexivity|]. split; [reflexivity|]. f_equal. f_equal.
      cbn [nodes]. apply set_eq. intros x. rewrite !elem_of_union. tauto.
  - eexists _, _. split; [reflexivity|]. rewrite RegisterNode_returns, Ha.
    cbn [chain transactions nodes]. split.
    + f_equal.
      * apply bool_decide_eq_false. intros Hnot. apply Hnot.
        apply elem_of_union_l, elem_of_singleton. reflexivity.
      * f_equal. apply set_eq. intros x. rewrite !elem_of_union. tauto.
    + eexists _, _, _, _, _. rewrite !RegisterNode_returns, Ha, Hb.
      split; [reflexivity|]. split; reflexivity.
  - eexists _, _. split; [reflexivity|]. rewrite RegisterNode_returns, Ha.
    split; [reflexivity|].
    eexists _, _, _, _, _. rewrite !RegisterNode_returns, Ha, Hb.
    split; [reflexivity|]. split; reflexivity.
  - eexists _, _. split; [reflexivity|]. rewrite RegisterNode_returns, Ha.
    split; [reflexivity|].
    eexists _, _, _, _, _. rewrite !RegisterNode_returns, Ha, Hb.
    split; [reflexivity|]. split; reflexivity.
Qed.


(** ** The handlers *)


(** X14.  On a POST [handler.AddTransaction] puts what the decoder left in
    the transaction at the end of the pool, also when the body did not
    decode; it answers with the index after the last block's, with status
    201, or 500 and an error when the body did not decode. *)
Theorem handler_AddTransaction_appends
    (r : Request Transaction) (bc : Blockchain) (lb : Block) :
  Method r = MethodPost ->
  last (chain bc) = Some lb ->
  let grown :=
    mkBlockchain (chain bc) (transactions bc ++ [Decoded r]) (nodes bc) in
  let told :=
    Message ("Transaction will be added to Block "
             ++ decimal (wrap64 (Index lb + 1))) in
  handler.AddTransaction r bc =
  Done (mkresponse told
          (if DecodeFailed r then StatusInternalServerError else StatusCreated)
          (if DecodeFailed r
           then Some "fail to add transaction to the blockchain" else None))
       grown /\
  buildResponse (handler.AddTransaction r) bc =
  Done (if DecodeFailed r
        then (StatusInternalServerError,
              ErrorText "fail to add transaction to the blockchain")
        else (StatusCreated, told))
       grown.
Proof.
  intros Hpost Hlb grown told.
  assert (Hrun : handler.AddTransaction r bc =
                 Done (mkresponse told
                         (if DecodeFailed r then StatusInternalServerError
                          else StatusCreated)
                         (if DecodeFailed r
                          then Some "fail to add transaction to the blockchain"
                          else None)) grown).
  { unfold handler.AddTransaction. rewrite Hpost.
    change (String.eqb MethodPost MethodPost) with true. cbn [negb].
    rewrite (bind_Done _ _ _ _ _ (NewTransaction_returns (Decoded r) bc lb Hlb)).
    destruct (DecodeFailed r); reflexivity. }
  split; [exact Hrun|].
  unfold buildResponse. rewrite (bind_Done _ _ _ _ _ Hrun).
  destruct (DecodeFailed r); reflexivity.
Qed.

(** X15.  A handler called with another method than its own answers 405
    with the error "method ... not allowd" and does nothing else: the
    ledger is as it was and no peer is polled. *)
Theorem wrong_method_is_refused (method : string) (bc : Blockchain) :
  (method <> MethodPost ->
   (forall tx failed,
       handler.AddTransaction (mkRequest method tx failed) bc =
       Done (methodNotAllowed method) bc) /\
   (forall addresses failed keys,
       handler.RegisterNode (mkRequest method addresses failed) keys bc =
       Done (methodNotAllowed method) bc)) /\
  (method <> MethodGet ->
   (forall http_Get keys,
       handler.ResolveConflicts (mkRequest method tt false) http_Get keys bc =
       Done (methodNotAllowed method) bc) /\
   handler.Blockchain (mkRequest method tt false) bc =
   Done (methodNotAllowed method) bc) /\
  buildResponse (ret (methodNotAllowed method)) bc =
  Done (StatusMethodNotAllowed, ErrorText ("method " ++ method ++ " not allowd")) bc.
Proof.
  split; [|split; [|reflexivity]].
  - intros Hne. apply String.eqb_neq in Hne.
    unfold handler.AddTransaction, handler.RegisterNode. cbn [Method].
    rewrite Hne. cbn [negb]. split; reflexivity.
  - intros Hne. apply String.eqb_neq in Hne.
    unfold handler.ResolveConflicts, handler.Blockchain. cbn [Method].
    rewrite Hne. cbn [negb]. split; reflexivity.
Qed.

(** X16.  On a GET [handler.ResolveConflicts] never answers that the chain
    was replaced: when conflict resolution returns, the message is "Our
    chain is authoritative" and the chain of the answer is the chain of the
    ledger afterwards, be it the local chain or an adopted one. *)
Theorem handler_ResolveConflicts_always_authoritative
    {A} (r : Request A) (http_Get : string -> option Response)
    (keys : list string) (bc : Blockchain) :
  Method r = MethodGet ->
  match ResolveConflicts http_Get keys bc with
  | Done _ bc' =>
      handler.ResolveConflicts r http_Get keys bc =
      Done (mkresponse (ResolvedView "Our chain is authoritative" (chain bc'))
              StatusOK None) bc'
  | Panicked bc' =>
      handler.ResolveConflicts r http_Get keys bc = Panicked bc'
  | OutOfFuel => False
  end.
Proof.
  intros Hget. unfold handler.ResolveConflicts. rewrite Hget.
  change (String.eqb MethodGet MethodGet) with true. cbn [negb].
  destruct (ResolveConflicts http_Get keys bc) as [b bc'|bc'|] eqn:Hrun.
  - rewrite (bind_Done _ _ _ _ _ Hrun).
    rewrite (ResolveConflicts_never_true _ _ _ _ _ Hrun). reflexivity.
  - unfold bind at 1. rewrite Hrun. reflexivity.
  - rewrite ResolveConflicts_run in Hrun.
    destruct (ResolveConflicts_loop _ _ _) as [[m c]|]; discriminate.
Qed.

End Ledger_properties.

(* ===================================================================== *)
(** * The further properties at work *)

Section Concrete_properties.

#[local] Existing Instance Sample.lib.

Import Sample.

Lemma caught_up_through_handlers :
  reachable_by through_the_handlers (mkBlockchain longer_chain [] (nodes ledger1)).
Proof.
  apply (reachable_call _ ledger1 (CallResolveConflicts net_ahead [peer])).
  - apply ledger1_reachable. intros bc. exact I.
  - exact peer_is_polled.
  - exact I.
  - cbn [after]. rewrite resolve_ahead. reflexivity.
Qed.

Lemma ProofOfWork_scans_in_order_witness :
  Z.of_nat 3 <= max_int + 1 /\
  ProofOfWork 3 30916 = Some 2 /\
  (forall r, 0 <= r < 2 -> ValidProof 30916 r = false).
Proof.
  assert (Hfuel : Z.of_nat 3 <= max_int + 1) by (unfold max_int; lia).
  pose proof (ProofOfWork_scans_in_order 3 30916 Hfuel) as H.
  assert (Hrun : ProofOfWork 3 30916 = Some 2) by (vm_compute; reflexivity).
  rewrite Hrun in H.
  split; [exact Hfuel|]. split; [exact Hrun|]. exact (proj2 (proj2 H)).
Defined.

Lemma ValidChain_of_two_parts_witness :
  last [genesis] = Some genesis /\
  head [block2] = Some block2 /\
  exists v1 v2 : bool,
    ValidChain [genesis] = Some v1 /\
    ValidChain [block2] = Some v2 /\
    ValidChain ([genesis] ++ [block2]) = Some (v1 && pair_ok genesis block2 && v2).
Proof.
  split; [reflexivity|]. split; [reflexivity|].
  exact (ValidChain_of_two_parts [genesis] [block2] genesis block2 eq_refl eq_refl).
Defined.

Lemma ValidChain_ignores_contents_of_last_block_witness :
  ValidChain ([genesis] ++ [block2]) =
  ValidChain ([genesis] ++
              [mkBlock 9 0 [mkTransaction "0" "thief" 1000 0]
                       (Proof block2) (PreviousHash block2)]).
Proof.
  exact (ValidChain_ignores_contents_of_last_block [genesis] block2
           (mkBlock 9 0 [mkTransaction "0" "thief" 1000 0]
                    (Proof block2) (PreviousHash block2))
           eq_refl eq_refl).
Defined.

Lemma NewTransaction_announces_next_block_witness :
  chain ledger0 <> [] /\
  sequential (chain ledger0) /\
  exists (bc1 : Blockchain) (block : Block) (bc2 : Blockchain),
    NewTransaction paying ledger0 = Done 2 bc1 /\
    NewBlock 7 "" 9 bc1 = Done block bc2 /\
    Index block = 2 /\
    Transactions block = [paying].
Proof.
  assert (Hne : chain ledger0 <> []) by discriminate.
  assert (Hseq : sequential (chain ledger0)).
  { intros [|i] b Hi; [|discriminate]. injection Hi as <-. reflexivity. }
  split; [exact Hne|]. split; [exact Hseq|].
  destruct (NewTransaction_announces_next_block paying 7 9 "" ledger0 Hne Hseq)
    as (index & bc1 & block & bc2 & Htx & Hblock & Hindex & Hpool & _).
  assert (Hidx : index = 2).
  { rewrite (NewTransaction_returns paying ledger0 genesis eq_refl) in Htx.
    injection Htx as <- _. reflexivity. }
  rewrite Hidx in Htx, Hindex. exists bc1, block, bc2.
  split; [exact Htx|]. split; [exact Hblock|]. split; [exact Hindex|].
  exact Hpool.
Defined.

Lemma empty_chain_panics_witness :
  chain emptyBlockchain = [] /\
  LastBlock emptyBlockchain = Panicked emptyBlockchain /\
  NewTransaction paying emptyBlockchain =
  Panicked (mkBlockchain [] [paying] ∅).
Proof.
  split; [reflexivity|].
  destruct (empty_chain_panics emptyBlockchain eq_refl) as (Hlast & _ & Htx & _).
  split; [exact Hlast|]. exact (Htx paying).
Defined.

Lemma Mine_block_contents_witness :
  ResolveConflicts net_down [] ledger2 = Done false ledger2 /\
  last (chain ledger2) = Some tip /\
  ValidProof (Proof tip) 2 = true /\
  exists (block : Block) (bc' : Blockchain),
    Mine "miner" net_down [] 9 3 ledger2 = Done block bc' /\
    length (Transactions block) = 3%nat /\
    Proof block = 2 /\
    chain bc' = [genesis; tip; block].
Proof.
  assert (Hv : ValidProof (Proof tip) 2 = true) by (vm_compute; reflexivity).
  assert (Hp : 0 <= 2 <= max_int) by (unfold max_int; lia).
  split; [reflexivity|]. split; [reflexivity|]. split; [exact Hv|].
  destruct (Mine_block_contents "miner" net_down [] 9 ledger2 ledger2 false tip 2
              eq_refl eq_refl Hp Hv)
    as (block & bc' & Hrun & _ & Hlen & _ & _ & _ & _ & _ & Hchain & _).
  destruct (Hrun 3%nat ltac:(cbn; lia)) as [Hmine _].
  exists block, bc'. split; [exact Hmine|]. split; [exact Hlen|].
  split; [|exact Hchain].
  assert (Hdirect : exists b l, Mine "miner" net_down [] 9 3 ledger2 = Done b l
                                /\ Proof b = 2)
    by (eexists _, _; split; vm_compute; reflexivity).
  destruct Hdirect as (b & l & Hb & Hproof).
  rewrite Hmine in Hb. injection Hb as -> _. exact Hproof.
Defined.

Lemma chains_built_by_handlers_are_valid_witness :
  reachable_by through_the_handlers (mkBlockchain longer_chain [] (nodes ledger1)) /\
  ValidChain longer_chain = Some true.
Proof.
  split; [exact caught_up_through_handlers|].
  exact (chains_built_by_handlers_are_valid _ caught_up_through_handlers).
Defined.

Lemma ResolveConflicts_adopts_first_longest_witness :
  ResolveConflicts net_ahead [peer] ledger1 =
  Done false (mkBlockchain longer_chain [] (nodes ledger1)) /\
  transactions (mkBlockchain longer_chain [] (nodes ledger1)) = transactions ledger1.
Proof.
  split; [exact resolve_ahead|].
  exact (proj1 (ResolveConflicts_adopts_first_longest net_ahead [peer] ledger1 _
                  false resolve_ahead)).
Defined.

Lemma ResolveConflicts_without_longer_peer_witness :
  ResolveConflicts net_down [peer] ledger1 = Done false ledger1.
Proof.
  apply (ResolveConflicts_without_longer_peer net_down [peer] ledger1).
  intros n i _ Hf. discriminate Hf.
Defined.

Lemma ResolveConflicts_twice_witness :
  ResolveConflicts net_ahead [peer] ledger1 =
  Done false (mkBlockchain longer_chain [] (nodes ledger1)) /\
  ResolveConflicts net_ahead [peer] (mkBlockchain longer_chain [] (nodes ledger1)) =
  Done false (mkBlockchain longer_chain [] (nodes ledger1)).
Proof.
  split; [exact resolve_ahead|].
  exact (ResolveConflicts_twice net_ahead [peer] ledger1 _ false resolve_ahead).
Defined.


Lemma handler_AddTransaction_appends_witness :
  last (chain ledger0) = Some genesis /\
  handler.AddTransaction (mkRequest "POST" (mkTransaction "" "" 0 0) true) ledger0 =
  Done (mkresponse (Message "Transaction will be added to Block 2")
          StatusInternalServerError
          (Some "fail to add transaction to the blockchain"))
       (mkBlockchain [genesis] [mkTransaction "" "" 0 0] ∅).
Proof.
  split; [reflexivity|].
  exact (proj1 (handler_AddTransaction_appends
                  (mkRequest "POST" (mkTransaction "" "" 0 0) true)
                  ledger0 genesis eq_refl eq_refl)).
Defined.

Lemma handler_ResolveConflicts_always_authoritative_witness :
  handler.ResolveConflicts (mkRequest "GET" tt false) net_ahead [peer] ledger1 =
  Done (mkresponse (ResolvedView "Our chain is authoritative" longer_chain)
          StatusOK None)
       (mkBlockchain longer_chain [] (nodes ledger1)).
Proof.
  pose proof (handler_ResolveConflicts_always_authoritative
                (mkRequest "GET" tt false) net_ahead [peer] ledger1 eq_refl) as H.
  rewrite resolve_ahead in H. exact H.
Defined.

End Concrete_properties.
